(** * Webhook dispatcher: batched fan-out with multi-round retry

    A shallow embedding of [src/services/webhooks.service.js]: the methods
    [chunkWebHooks], [groupResponses], [makeRequests] and [initateProcessing]
    of the [webhooks] service, together with the properties of the dispatcher
    that follow from them. *)

From Stdlib Require Import ZArith Lia.
From stdpp Require Import base option list gmap strings pretty.

Set Default Proof Using "Type".

(** ** JavaScript values used by the service *)

(** An error value, as thrown by a function or carried by a rejected promise. *)
Record JsError := { message : string }.

(** How a call, or the promise an [async] call returns, ends: with a value,
    with an error, or not at all (a loop that never exits). *)
Inductive completion (A : Type) : Type :=
  | Fulfilled (a : A)
  | Rejected (err : JsError)
  | Diverges.
Arguments Fulfilled {A} a.
Arguments Rejected {A} err.
Arguments Diverges {A}.

(** [promise.then(f)] and [promise.catch(g)] for callbacks that return a value. *)
Definition then_ {A B} (p : completion A) (f : A → B) : completion B :=
  match p with
  | Fulfilled a => Fulfilled (f a)
  | Rejected err => Rejected err
  | Diverges => Diverges
  end.

Definition catch_ {A} (p : completion A) (g : JsError → A) : completion A :=
  match p with
  | Fulfilled a => Fulfilled a
  | Rejected err => Fulfilled (g err)
  | Diverges => Diverges
  end.

(** [Promise.all]: the values in input order, or the first rejection. *)
Fixpoint Promise_all {A} (ps : list (completion A)) : completion (list A) :=
  match ps with
  | [] => Fulfilled []
  | Fulfilled a :: ps' =>
      match Promise_all ps' with
      | Fulfilled l => Fulfilled (a :: l)
      | Rejected err => Rejected err
      | Diverges => Diverges
      end
  | Rejected err :: _ => Rejected err
  | Diverges :: _ => Diverges
  end.

(** [Array.prototype.slice(start, end)] on integer arguments: a negative index
    counts from the end, both are clamped to the array. *)
Definition slice {A} (l : list A) (start end_ : Z) : list A :=
  let len := Z.of_nat (length l) in
  let k := if (start <? 0)%Z then Z.max (len + start) 0 else Z.min start len in
  let final := if (end_ <? 0)%Z then Z.max (len + end_) 0 else Z.min end_ len in
  take (Z.to_nat (final - k)) (drop (Z.to_nat k) l).

(** ** chunkWebHooks *)

(** The [while (i < n)] loop of [chunkWebHooks]; [fuel] bounds the number of
    times the condition is tested, [None] means the bound was reached. *)
Fixpoint chunk_while {A} (fuel : nat) (webHooksArray : list A) (chunkSize : Z)
    (i : Z) (chunks : list (list A)) : option (list (list A)) :=
  match fuel with
  | O => None
  | S fuel' =>
      if (i <? Z.of_nat (length webHooksArray))%Z
      then chunk_while fuel' webHooksArray chunkSize (i + chunkSize)%Z
             (chunks ++ [slice webHooksArray i (i + chunkSize)])
      else Some chunks
  end.

(** [chunkWebHooks(webHooksArray, chunkSize)]. The loop is given one test per
    element and one more, which [chunk_while_adequate] shows is enough whenever
    any bound is. *)
Definition chunkWebHooks {A} (webHooksArray : list A) (chunkSize : Z)
    : completion (list (list A)) :=
  match chunk_while (S (length webHooksArray)) webHooksArray chunkSize 0 [] with
  | Some chunks => Fulfilled chunks
  | None => Diverges
  end.

(** What a chunking of [l] into groups of [size] looks like. *)
Definition chunking_of {A} (size : Z) (l : list A) (chunks : list (list A)) : Prop :=
  concat chunks = l ∧
  Forall (λ c, (1 ≤ Z.of_nat (length c) ≤ size)%Z) chunks ∧
  ∀ init final, chunks = init ++ [final] →
    Forall (λ c, Z.of_nat (length c) = size) init.

(** ** Hooks, responses and the HTTP client *)

(** A registered hook, as the database adapter returns it. *)
Module WebHook.
Record t := { _id : string; name : string; hookURL : string }.
End WebHook.

(** The object a delivery attempt resolves to:
    [{success: flag, hookURL, _id, name}]. *)
Record Response := {
  success : bool;
  hookURL : string;
  _id : string;
  name : string
}.

(** [const {hookURL, _id, name} = hook] reads three fields; [makeRequests] is
    given hooks in the first round and responses of failed attempts later. *)
Class HookFields (H : Type) := {
  get_hookURL : H → string;
  get_id : H → string;
  get_name : H → string
}.

#[export] Instance WebHook_fields : HookFields WebHook.t :=
  {| get_hookURL := WebHook.hookURL; get_id := WebHook._id; get_name := WebHook.name |}.

#[export] Instance Response_fields : HookFields Response :=
  {| get_hookURL := hookURL; get_id := _id; get_name := name |}.

(** The body posted to every hook: [{ipadr, timeStamp}]. *)
Record PostData := { ipadr : string; timeStamp : Z }.

(** What [axios.post] resolves with; only [status] is read. *)
Record AxiosResponse := { status : Z }.

(** What the service calls outside itself, each call acting on the state of
    the outside world: [axios.post(url, body)] settles with a response or with
    an error, [this.adapter.find({})] with the registered hooks or with an
    error, and [new Date().getTime()] reads the clock. *)
Class Transport := {
  World : Type;
  axios_post : string → PostData → World → (AxiosResponse + JsError) * World;
  adapter_find : World → (list WebHook.t + JsError) * World;
  Date_getTime : World → Z * World
}.

(** A computation that acts on the world and completes. *)
Definition Async `{Transport} (A : Type) : Type := World → completion A * World.

Definition async_ret `{Transport} {A} (a : A) : Async A := λ w, (Fulfilled a, w).

Definition async_bind `{Transport} {A B} (m : Async A) (k : A → Async B) : Async B :=
  λ w, match m w with
       | (Fulfilled a, w') => k a w'
       | (Rejected err, w') => (Rejected err, w')
       | (Diverges, w') => (Diverges, w')
       end.

Notation "x <~ m ; k" := (async_bind m (λ x, k))
  (at level 100, m at next level, right associativity).

(** A synchronous call inside an [async] function. *)
Definition async_call `{Transport} {A} (c : completion A) : Async A := λ w, (c, w).

(** [array.map(f)] for a callback that starts an asynchronous call: the calls
    are started in array order, the result is the array of their promises. *)
Fixpoint map_async `{Transport} {A B} (f : A → Async B) (l : list A)
    : World → list (completion B) * World :=
  λ w, match l with
       | [] => ([], w)
       | a :: l' =>
           let '(p, w1) := f a w in
           let '(ps, w2) := map_async f l' w1 in
           (p :: ps, w2)
       end.

(** [await Promise.all(array.map(f))]. *)
Definition await_all `{Transport} {A B} (f : A → Async B) (l : list A) : Async (list B) :=
  λ w, let '(ps, w') := map_async f l w in (Promise_all ps, w').

(** ** groupResponses *)

Module Batch.
Record t := { success : list Response; failed : list Response }.
End Batch.

Definition groupResponses (responseArray : list Response) : Batch.t :=
  foldl (λ acc response,
           if success response
           then {| Batch.success := Batch.success acc ++ [response];
                   Batch.failed := Batch.failed acc |}
           else {| Batch.success := Batch.success acc;
                   Batch.failed := Batch.failed acc ++ [response] |})
        {| Batch.success := []; Batch.failed := [] |} responseArray.

(** ** makeRequests *)

(** The callback of [webHooksArray.map]:
    [axios.post(hook.hookURL, postData).then(...).catch(...)]. *)
Definition hookRequest `{Transport} {H} `{HookFields H} (postData : PostData) (hook : H)
    : Async Response :=
  λ w,
    let hookURL := get_hookURL hook in
    let _id := get_id hook in
    let name := get_name hook in
    let '(settled, w') := axios_post (get_hookURL hook) postData w in
    let promise := match settled with inl res => Fulfilled res | inr err => Rejected err end in
    (catch_
       (then_ promise (λ res,
          let flag := if (status res =? 200)%Z then true else false in
          {| success := flag; hookURL := hookURL; _id := _id; name := name |}))
       (λ err, {| success := false; hookURL := hookURL; _id := _id; name := name |}),
     w').

Definition makeRequests `{Transport} {H} `{HookFields H} (webHooksArray : list H)
    (postData : PostData) : Async Batch.t :=
  responses <~ await_all (hookRequest postData) webHooksArray;
  async_ret (groupResponses responses).

(** ** initateProcessing *)

Record Settings := { BATCH_SIZE : Z; RETRY_COUNT : Z }.

Definition settings : Settings := {| BATCH_SIZE := 10; RETRY_COUNT := 3 |}.

(** The key [`retrySuccess${i}`] of the report. *)
Definition retryKey (i : Z) : string := "retrySuccess" +:+ pretty i.

(** Chunk the hooks and run [makeRequests] on every chunk: the part shared by
    the first pass and the body of the retry loop. *)
Definition dispatchRound `{Transport} {H} `{HookFields H} (BATCH_SIZE : Z)
    (webHooks : list H) (postData : PostData) : Async (list Batch.t) :=
  chunks <~ async_call (chunkWebHooks webHooks BATCH_SIZE);
  await_all (λ subset, makeRequests subset postData) chunks.

(** The first pass, up to [let trigger_Report = {successRequests}]: the state
    the retry loop starts from, [(failedRequests, trigger_Report)]. *)
Definition firstRound `{Transport} {H} `{HookFields H} (BATCH_SIZE : Z)
    (webHooks : list H) (postData : PostData)
    : Async (list Response * gmap string (list Response)) :=
  batchResponse <~ dispatchRound BATCH_SIZE webHooks postData;
  let '(failedRequests, successRequests) :=
    foldl (λ '(failedRequests, successRequests) batch,
             (failedRequests ++ Batch.failed batch,
              successRequests ++ Batch.success batch))
          ([], []) batchResponse in
  async_ret (failedRequests, {["successRequests" := successRequests]}).

(** The body of [for (let i = 1; i < RETRY_COUNT; i++)]. *)
Definition retryRound `{Transport} (BATCH_SIZE : Z) (postData : PostData) (i : Z)
    (st : list Response * gmap string (list Response))
    : Async (list Response * gmap string (list Response)) :=
  let '(failedRequests, trigger_Report) := st in
  retryResponses <~ dispatchRound BATCH_SIZE failedRequests postData;
  async_ret
    (foldl (λ '(failedRequests, trigger_Report) batch,
              (failedRequests ++ Batch.failed batch,
               <[retryKey i := Batch.success batch]> trigger_Report))
           ([], trigger_Report) retryResponses).

(** [n] iterations of the retry loop, the first with index [i]. *)
Fixpoint retryRounds `{Transport} (n : nat) (BATCH_SIZE : Z) (postData : PostData) (i : Z)
    (st : list Response * gmap string (list Response))
    : Async (list Response * gmap string (list Response)) :=
  match n with
  | O => async_ret st
  | S n' =>
      st' <~ retryRound BATCH_SIZE postData i st;
      retryRounds n' BATCH_SIZE postData (i + 1)%Z st'
  end.

Definition initateProcessing `{Transport} {H} `{HookFields H} (settings : Settings)
    (webHooks : list H) (postData : PostData) : Async (gmap string (list Response)) :=
  let BATCH_SIZE := BATCH_SIZE settings in
  let RETRY_COUNT := RETRY_COUNT settings in
  st <~ firstRound BATCH_SIZE webHooks postData;
  st' <~ retryRounds (Z.to_nat (RETRY_COUNT - 1)) BATCH_SIZE postData 1 st;
  let '(failedRequests, trigger_Report) := st' in
  async_ret (<["failed" := failedRequests]> trigger_Report).

(** ** The trigger action *)

(** The handler of [trigger]; [this] stands for the settings of the service.
    Its [try]/[catch] rethrows what it catches. *)
Definition trigger `{Transport} (this : Settings) (ipadr : string)
    : Async (gmap string (list Response)) :=
  timeStamp <~ (λ w, let '(t, w') := Date_getTime w in (Fulfilled t, w'));
  webHooks <~ (λ w, let '(found, w') := adapter_find w in
                    (match found with
                     | inl hooks => Fulfilled hooks
                     | inr err => Rejected err
                     end, w'));
  data <~ initateProcessing this webHooks {| ipadr := ipadr; timeStamp := timeStamp |};
  async_ret data.

(** ** Observing a run *)

(** The response of one delivery attempt: the flag is set for a response with
    status 200 and for nothing else. *)
Definition attempt `{Transport} {H} `{HookFields H} (postData : PostData) (hook : H)
    (w : World) : Response * World :=
  let '(settled, w') := axios_post (get_hookURL hook) postData w in
  ({| success := match settled with
                 | inl res => (status res =? 200)%Z
                 | inr _ => false
                 end;
      hookURL := get_hookURL hook; _id := get_id hook; name := get_name hook |}, w').

(** The responses of attempting the hooks of a list, in order. *)
Fixpoint attempts `{Transport} {H} `{HookFields H} (postData : PostData) (hooks : list H)
    (w : World) : list Response * World :=
  match hooks with
  | [] => ([], w)
  | hook :: hooks' =>
      let '(r, w1) := attempt postData hook w in
      let '(rs, w2) := attempts postData hooks' w1 in
      (r :: rs, w2)
  end.

Definition succeeded (rs : list Response) : list Response :=
  filter (λ r, success r = true) rs.

Definition failed (rs : list Response) : list Response :=
  filter (λ r, success r = false) rs.

(** The failure set and the world after [k] retry rounds that start from the
    failure set [F]. *)
Fixpoint failureSet `{Transport} (postData : PostData) (k : nat) (F : list Response)
    (w : World) : list Response * World :=
  match k with
  | O => (F, w)
  | S k' =>
      let '(rs, w1) := attempts postData F w in
      failureSet postData k' (failed rs) w1
  end.

(** The key of the bucket of round [k]. *)
Definition roundKey (k : Z) : string :=
  if (k =? 0)%Z then "successRequests" else retryKey k.

(** The state [(failedRequests, trigger_Report)] with which retry round [k]
    starts (for [k = 1] the state the first pass leaves). *)
Definition beforeRound `{Transport} {H} `{HookFields H} (settings : Settings)
    (webHooks : list H) (postData : PostData) (k : nat)
    : Async (list Response * gmap string (list Response)) :=
  st <~ firstRound (BATCH_SIZE settings) webHooks postData;
  retryRounds (k - 1) (BATCH_SIZE settings) postData 1 st.

(** Every response of a list of batches, successes and failures. *)
Definition batchResponses (batches : list Batch.t) : list Response :=
  concat (map (λ batch, Batch.success batch ++ Batch.failed batch) batches).

(** The identifiers of the endpoints in a list. *)
Definition ids {H} `{HookFields H} (l : list H) : list string := map get_id l.

(** The endpoint identifiers found in some bucket of a report. *)
Definition inBucket (report : gmap string (list Response)) (key : string) (id : string) : Prop :=
  ∃ bucket, report !! key = Some bucket ∧ id ∈ ids bucket.

(** Every response received in round [k] of a run, round 0 being the first
    pass. *)
Definition roundResponses `{Transport} {H} `{HookFields H} (settings : Settings)
    (webHooks : list H) (postData : PostData) (k : nat) : Async (list Response) :=
  match k with
  | O =>
      batches <~ dispatchRound (BATCH_SIZE settings) webHooks postData;
      async_ret (batchResponses batches)
  | S _ =>
      st <~ beforeRound settings webHooks postData k;
      batches <~ dispatchRound (BATCH_SIZE settings) st.1 postData;
      async_ret (batchResponses batches)
  end.

(** No attempt on endpoint [id] succeeds in round [k] of the run from [w]. *)
Definition failsInRound `{Transport} {H} `{HookFields H} (settings : Settings)
    (webHooks : list H) (postData : PostData) (w : World) (id : string) (k : nat) : Prop :=
  match (roundResponses settings webHooks postData k w).1 with
  | Fulfilled rs => Forall (λ r, _id r = id → success r = false) rs
  | _ => True
  end.

(** ** Example transports and inputs *)

(** A world that counts the requests issued; request number [n] gets status
    200 when [script n] holds and a connection error otherwise. The database
    holds [db], the clock shows the count. *)
Definition scripted (db : list WebHook.t) (script : nat → bool) : Transport :=
  {| World := nat;
     axios_post := λ _ _ n,
       (if script n then inl {| status := 200 |}
        else inr {| message := "ECONNREFUSED" |}, S n);
     adapter_find := λ n, (inl db, n);
     Date_getTime := λ n, (Z.of_nat n, n) |}.

(** A world without state in which the hooks at the URLs of [down] refuse the
    connection and every other hook answers 200. *)
Definition byURL (db : list WebHook.t) (down : list string) : Transport :=
  {| World := unit;
     axios_post := λ url _ w,
       (if bool_decide (url ∈ down) then inr {| message := "ECONNREFUSED" |}
        else inl {| status := 200 |}, w);
     adapter_find := λ w, (inl db, w);
     Date_getTime := λ w, (0%Z, w) |}.

(** [n] hooks as [seedDB] registers them. *)
Definition seedHooks (n : nat) : list WebHook.t :=
  map (λ i, {| WebHook._id := pretty i;
               WebHook.name := "Server#" +:+ pretty i;
               WebHook.hookURL := "http://localhost:400" +:+ pretty i |}) (seq 0 n).

Definition examplePost : PostData := {| ipadr := "10.0.0.1"; timeStamp := 0 |}.

(** The first [n] requests are refused, every later one is answered 200. *)
Definition refuseFirst (n : nat) : Transport :=
  scripted [] (λ k, bool_decide (n ≤ k)).

(** The response of a successful attempt on hook number [i] of [seedHooks]. *)
Definition seedSuccess (i : nat) : Response :=
  {| success := true;
     hookURL := "http://localhost:400" +:+ pretty i;
     _id := pretty i;
     name := "Server#" +:+ pretty i |}.

(** The report of a run in which nothing is dispatched. *)
Definition emptyReport : gmap string (list Response) :=
  <["failed" := []]> {["successRequests" := []]}.

(** ** The validateAndUpdate action *)

(** What [validateAndUpdate] calls outside itself: [validUrl.isWebUri(url)]
    returns the URI or [undefined]; [console.log] prints that value;
    [this.adapter.updateById(_id, {name, hookURL})] settles with the updated
    document ([null] when there is none) or with an error. *)
Class Registry `{Transport} := {
  validUrl_isWebUri : string → option string;
  console_log : option string → World → World;
  adapter_updateById :
    string → string → string → World → (option WebHook.t + JsError) * World
}.

(** A string in a condition: every string but the empty one counts as true. *)
Definition truthy (s : string) : bool :=
  match s with
  | EmptyString => false
  | String _ _ => true
  end.

(** [undefined] or a string in a condition. *)
Definition truthy_opt (v : option string) : bool :=
  match v with
  | Some s => truthy s
  | None => false
  end.

(** The handler of [validateAndUpdate] on the parameters [_id], [name] and
    [hookURL]; its [try]/[catch] rethrows what it catches. *)
Definition validateAndUpdate `{Registry} (_id name hookURL : string)
    : Async (option WebHook.t) :=
  let update : Async (option WebHook.t) :=
    λ w, let '(updated, w') := adapter_updateById _id name hookURL w in
         (match updated with
          | inl UpdatedWebHook => Fulfilled UpdatedWebHook
          | inr err => Rejected err
          end, w') in
  λ w,
    if truthy hookURL then
      let w1 := console_log (validUrl_isWebUri hookURL) w in
      if negb (truthy_opt (validUrl_isWebUri hookURL))
      then (Rejected {| message := "Hook Not Proper" |}, w1)
      else update w1
    else update w.

(** ** Responses and the hooks they come from *)

(** The response [x] carries the identifier, name and URL of [hook]. *)
Definition carries {H} `{HookFields H} (hook : H) (x : Response) : Prop :=
  _id x = get_id hook ∧ name x = get_name hook ∧ hookURL x = get_hookURL hook.

(** ** Counting requests *)

(** The transport [T] with a counter of the calls of [axios.post] beside its
    world; the counter is written and never read. *)
Definition counted (T : Transport) : Transport :=
  {| World := (@World T * nat)%type;
     axios_post := λ url body '(w, n),
       let '(settled, w') := @axios_post T url body w in (settled, (w', S n));
     adapter_find := λ '(w, n),
       let '(found, w') := @adapter_find T w in (found, (w', n));
     Date_getTime := λ '(w, n),
       let '(t, w') := @Date_getTime T w in (t, (w', n)) |}.

(** A registry that accepts the URLs that start with [http://]. *)
Definition httpOnly (T : Transport) : @Registry T :=
  {| validUrl_isWebUri := λ url,
       if String.prefix "http://" url then Some url else None;
     console_log := λ _ w, w;
     adapter_updateById := λ _id name hookURL w,
       (inl (Some {| WebHook._id := _id; WebHook.name := name;
                     WebHook.hookURL := hookURL |}), w) |}.

(** ** Lemmas on slice and the chunking loop *)

Lemma slice_take_drop {A} (l : list A) (i size : Z) :
  (0 ≤ i)%Z → (0 ≤ size)%Z → (i ≤ Z.of_nat (length l))%Z →
  slice l i (i + size) = take (Z.to_nat size) (drop (Z.to_nat i) l).
Proof.
  intros Hi Hs Hn. unfold slice.
  destruct (Z.ltb_spec i 0); [lia|].
  destruct (Z.ltb_spec (i + size) 0); [lia|].
  rewrite (Z.min_l i) by lia.
  destruct (Z.le_gt_cases (i + size) (Z.of_nat (length l))) as [Hle|Hgt].
  - rewrite Z.min_l by lia. f_equal. lia.
  - rewrite Z.min_r by lia.
    rewrite !take_ge; [done| |]; rewrite length_drop; lia.
Qed.

Lemma chunk_while_spec {A} (l : list A) (size : Z) :
  (1 ≤ size)%Z →
  ∀ fuel i chunks,
    (0 ≤ i)%Z →
    (Z.max 0 (Z.of_nat (length l) - i) < Z.of_nat fuel)%Z →
    ∃ rest, chunk_while fuel l size i chunks = Some (chunks ++ rest) ∧
            chunking_of size (drop (Z.to_nat i) l) rest.
Proof.
  intros Hsize. induction fuel as [|fuel IH]; intros i chunks Hi Hfuel.
  - lia.
  - simpl. destruct (Z.ltb_spec i (Z.of_nat (length l))) as [Hlt|Hge].
    + destruct (IH (i + size)%Z (chunks ++ [slice l i (i + size)]))
        as (rest & Hrun & Hcat & Hlen & Hinit); [lia|lia|].
      exists (slice l i (i + size) :: rest). split.
      { rewrite Hrun. by rewrite <-app_assoc. }
      rewrite slice_take_drop by lia.
      set (d := drop (Z.to_nat i) l) in *.
      assert (Hd : drop (Z.to_nat (i + size)) l = drop (Z.to_nat size) d).
      { unfold d. rewrite drop_drop. f_equal. lia. }
      rewrite Hd in Hcat.
      assert (Hdl : Z.of_nat (length d) = (Z.of_nat (length l) - i)%Z).
      { unfold d. rewrite length_drop. lia. }
      split; [|split].
      * simpl. rewrite Hcat. apply take_drop.
      * constructor; [|done]. rewrite length_take. lia.
      * intros init final Heq. destruct init as [|c init].
        { constructor. }
        simpl in Heq. injection Heq as Hc Hrest. subst c.
        constructor; [|by eapply Hinit].
        rewrite length_take.
        assert (Hne : rest ≠ []) by (rewrite Hrest; by destruct init).
        assert (Hdrop : drop (Z.to_nat size) d ≠ []).
        { intros Hnil. rewrite Hnil in Hcat. destruct rest as [|r rest]; [done|].
          apply Forall_cons in Hlen as [Hr _]. simpl in Hcat.
          apply app_eq_nil in Hcat as [-> _]. simpl in Hr. lia. }
        assert (Z.to_nat size < length d)%nat.
        { destruct (decide (Z.to_nat size < length d)%nat); [done|].
          exfalso. apply Hdrop, drop_ge. lia. }
        lia.
    + exists []. rewrite app_nil_r. split; [done|].
      rewrite drop_ge by lia. split; [done|]. split; [constructor|].
      intros init final Heq. by destruct init.
Qed.

Lemma chunk_while_mono {A} (l : list A) (size : Z) :
  ∀ fuel fuel' i chunks r,
    chunk_while fuel l size i chunks = Some r → (fuel ≤ fuel')%nat →
    chunk_while fuel' l size i chunks = Some r.
Proof.
  induction fuel as [|fuel IH]; intros fuel' i chunks r Hrun Hle; [done|].
  destruct fuel' as [|fuel']; [lia|]. simpl in *.
  destruct (i <? Z.of_nat (length l))%Z; [|done].
  eapply IH; [done|lia].
Qed.

Lemma chunk_while_stuck {A} (l : list A) (size : Z) :
  (size ≤ 0)%Z → l ≠ [] →
  ∀ fuel i chunks, (i ≤ 0)%Z → chunk_while fuel l size i chunks = None.
Proof.
  intros Hsize Hl. induction fuel as [|fuel IH]; intros i chunks Hi; [done|].
  simpl. destruct (Z.ltb_spec i (Z.of_nat (length l))) as [_|Hge].
  - apply IH. lia.
  - destruct l; [done|]. simpl in Hge. lia.
Qed.

(** The bound used by [chunkWebHooks] loses nothing: a run that ends within
    some bound ends within that one, with the same result. *)
Lemma chunk_while_adequate {A} (l : list A) (size : Z) fuel r :
  chunk_while fuel l size 0 [] = Some r →
  chunk_while (S (length l)) l size 0 [] = Some r.
Proof.
  intros Hrun.
  destruct (decide (1 ≤ size)%Z) as [Hpos|Hneg].
  - destruct (chunk_while_spec l size Hpos (S (length l)) 0%Z [])
      as (rest & Hrest & _); [lia|lia|].
    destruct (le_ge_dec fuel (S (length l))) as [Hle|Hge].
    + by eapply chunk_while_mono.
    + pose proof (chunk_while_mono _ _ _ _ _ _ _ Hrest Hge) as Hfuel. congruence.
  - destruct l as [|a l].
    + destruct fuel; [done|]. simpl in *. done.
    + rewrite chunk_while_stuck in Hrun; [done|lia|done|lia].
Qed.

Lemma chunkWebHooks_chunking {A} (l : list A) (size : Z) :
  (1 ≤ size)%Z →
  ∃ chunks, chunkWebHooks l size = Fulfilled chunks ∧ chunking_of size l chunks.
Proof.
  intros Hsize. unfold chunkWebHooks.
  destruct (chunk_while_spec l size Hsize (S (length l)) 0%Z [])
    as (rest & Hrest & Hspec); [lia|lia|].
  rewrite Hrest. eauto.
Qed.

Lemma chunkWebHooks_nil {A} (size : Z) :
  chunkWebHooks (@nil A) size = Fulfilled [].
Proof. done. Qed.

(** ** Completions of asynchronous computations *)

Section dispatcher.
Context `{T : Transport}.

Lemma async_bind_fulfilled {A B} (m : Async A) (k : A → Async B) w b w' :
  async_bind m k w = (Fulfilled b, w') ↔
  ∃ a w1, m w = (Fulfilled a, w1) ∧ k a w1 = (Fulfilled b, w').
Proof.
  unfold async_bind. split.
  - destruct (m w) as [[a| |] w1]; [eauto|done|done].
  - intros (a & w1 & -> & Hk). done.
Qed.

Lemma async_bind_rejected {A B} (m : Async A) (k : A → Async B) w err w' :
  async_bind m k w = (Rejected err, w') →
  m w = (Rejected err, w') ∨
  ∃ a w1, m w = (Fulfilled a, w1) ∧ k a w1 = (Rejected err, w').
Proof.
  unfold async_bind. destruct (m w) as [[a| |] w1]; [eauto| |done].
  intros [= <- <-]. by left.
Qed.

Lemma async_bind_step {A B} (m : Async A) (k : A → Async B) w a w1 :
  m w = (Fulfilled a, w1) → async_bind m k w = k a w1.
Proof. unfold async_bind. by intros ->. Qed.

Lemma Promise_all_fulfilled {A} (l : list A) :
  Promise_all (map Fulfilled l) = Fulfilled l.
Proof. induction l as [|a l IH]; [done|]. simpl. by rewrite IH. Qed.

(** ** groupResponses is the stable partition by the flag *)

Lemma groupResponses_foldl (rs : list Response) acc :
  foldl (λ acc response,
           if success response
           then {| Batch.success := Batch.success acc ++ [response];
                   Batch.failed := Batch.failed acc |}
           else {| Batch.success := Batch.success acc;
                   Batch.failed := Batch.failed acc ++ [response] |}) acc rs
  = {| Batch.success := Batch.success acc ++ succeeded rs;
       Batch.failed := Batch.failed acc ++ failed rs |}.
Proof.
  revert acc. induction rs as [|r rs IH]; intros acc.
  - simpl. rewrite !app_nil_r. by destruct acc.
  - simpl. rewrite IH. unfold succeeded, failed.
    destruct (success r) eqn:Hr; simpl.
    + rewrite filter_cons_True by done. rewrite filter_cons_False by congruence.
      by rewrite <-app_assoc.
    + rewrite filter_cons_False by congruence. rewrite filter_cons_True by done.
      by rewrite <-app_assoc.
Qed.

Lemma groupResponses_partition (rs : list Response) :
  groupResponses rs = {| Batch.success := succeeded rs; Batch.failed := failed rs |}.
Proof. unfold groupResponses. by rewrite groupResponses_foldl. Qed.

Lemma succeeded_app rs1 rs2 : succeeded (rs1 ++ rs2) = succeeded rs1 ++ succeeded rs2.
Proof. apply filter_app. Qed.

Lemma failed_app rs1 rs2 : failed (rs1 ++ rs2) = failed rs1 ++ failed rs2.
Proof. apply filter_app. Qed.

Lemma partition_length (rs : list Response) :
  length (succeeded rs) + length (failed rs) = length rs.
Proof.
  induction rs as [|r rs IH]; [done|]. unfold succeeded, failed in *.
  destruct (success r) eqn:Hr.
  - rewrite filter_cons_True by done. rewrite filter_cons_False by congruence.
    simpl. lia.
  - rewrite filter_cons_False by congruence. rewrite filter_cons_True by done.
    simpl. lia.
Qed.

Lemma elem_of_succeeded r rs : r ∈ succeeded rs ↔ success r = true ∧ r ∈ rs.
Proof. unfold succeeded. by rewrite list_elem_of_filter. Qed.

Lemma elem_of_failed r rs : r ∈ failed rs ↔ success r = false ∧ r ∈ rs.
Proof. unfold failed. by rewrite list_elem_of_filter. Qed.

Lemma ids_failed_sublist (rs : list Response) : ids (failed rs) `sublist_of` ids rs.
Proof. unfold ids, failed. apply fmap_sublist, sublist_filter. Qed.

(** With distinct identifiers, no identifier is on both sides. *)
Lemma partition_ids_disjoint (rs : list Response) id :
  NoDup (ids rs) → id ∈ ids (succeeded rs) → id ∉ ids (failed rs).
Proof.
  unfold ids. intros Hnd Hs Hf.
  apply list_elem_of_fmap in Hs as (r1 & -> & Hr1).
  apply list_elem_of_fmap in Hf as (r2 & Heq & Hr2).
  apply elem_of_succeeded in Hr1 as [Hs1 Hin1].
  apply elem_of_failed in Hr2 as [Hs2 Hin2].
  apply list_elem_of_lookup in Hin1 as [i Hi].
  apply list_elem_of_lookup in Hin2 as [j Hj].
  assert (i = j) as ->.
  { eapply NoDup_lookup; [exact Hnd| |].
    - rewrite list_lookup_fmap, Hi. done.
    - rewrite list_lookup_fmap, Hj. simpl in *. congruence. }
  congruence.
Qed.

(** ** makeRequests *)

Lemma hookRequest_attempt {H} `{HookFields H} postData (hook : H) w :
  hookRequest postData hook w
  = (Fulfilled (attempt postData hook w).1, (attempt postData hook w).2).
Proof.
  unfold hookRequest, attempt.
  destruct (axios_post (get_hookURL hook) postData w) as [[res|err] w']; simpl; [|done].
  by destruct (status res =? 200)%Z.
Qed.

Lemma map_async_hookRequest {H} `{HookFields H} postData (hooks : list H) w :
  map_async (hookRequest postData) hooks w
  = (map Fulfilled (attempts postData hooks w).1, (attempts postData hooks w).2).
Proof.
  revert w. induction hooks as [|hook hooks IH]; intros w; [done|].
  simpl. rewrite hookRequest_attempt.
  destruct (attempt postData hook w) as [r w1]. simpl.
  rewrite IH. by destruct (attempts postData hooks w1) as [rs w2].
Qed.

Lemma makeRequests_attempts {H} `{HookFields H} (hooks : list H) postData w :
  makeRequests hooks postData w
  = (Fulfilled (groupResponses (attempts postData hooks w).1),
     (attempts postData hooks w).2).
Proof.
  unfold makeRequests, async_bind, await_all.
  rewrite map_async_hookRequest, Promise_all_fulfilled. done.
Qed.

Lemma attempts_app {H} `{HookFields H} postData (l1 l2 : list H) w :
  attempts postData (l1 ++ l2) w
  = ((attempts postData l1 w).1 ++ (attempts postData l2 (attempts postData l1 w).2).1,
     (attempts postData l2 (attempts postData l1 w).2).2).
Proof.
  revert w. induction l1 as [|hook l1 IH]; intros w.
  - simpl. by destruct (attempts postData l2 w).
  - simpl. destruct (attempt postData hook w) as [r w1]. rewrite IH.
    destruct (attempts postData l1 w1) as [rs1 w2]. simpl.
    by destruct (attempts postData l2 w2).
Qed.

Lemma attempt_fields {H} `{HookFields H} postData (hook : H) w :
  _id (attempt postData hook w).1 = get_id hook ∧
  name (attempt postData hook w).1 = get_name hook ∧
  hookURL (attempt postData hook w).1 = get_hookURL hook.
Proof.
  unfold attempt. by destruct (axios_post (get_hookURL hook) postData w).
Qed.

Lemma attempts_ids {H} `{HookFields H} postData (hooks : list H) w :
  ids (attempts postData hooks w).1 = ids hooks.
Proof.
  revert w. induction hooks as [|hook hooks IH]; intros w; [done|].
  simpl. pose proof (attempt_fields postData hook w) as (Hid & _).
  destruct (attempt postData hook w) as [r w1].
  specialize (IH w1). destruct (attempts postData hooks w1) as [rs w2].
  simpl in *. by rewrite Hid, IH.
Qed.

Lemma attempts_length {H} `{HookFields H} postData (hooks : list H) w :
  length (attempts postData hooks w).1 = length hooks.
Proof.
  pose proof (attempts_ids postData hooks w) as Hids.
  apply (f_equal length) in Hids. unfold ids in Hids.
  by rewrite !length_map in Hids.
Qed.

(** ** One round: chunks, batches and what they add up to *)

Lemma elem_of_concat {A} (x : A) (ls : list (list A)) :
  x ∈ concat ls ↔ ∃ l, x ∈ l ∧ l ∈ ls.
Proof.
  rewrite list_elem_of_In, in_concat. split.
  - intros (l & Hl & Hx). exists l. by rewrite !list_elem_of_In.
  - intros (l & Hx & Hl). exists l. by rewrite <-!list_elem_of_In.
Qed.

Lemma chunkWebHooks_inv {A} (l : list A) (size : Z) chunks :
  chunkWebHooks l size = Fulfilled chunks →
  concat chunks = l ∧ (l = [] → chunks = []).
Proof.
  intros Hrun. destruct (decide (1 ≤ size)%Z) as [Hpos|Hneg].
  - destruct (chunkWebHooks_chunking l size Hpos) as (chunks' & Hrun' & Hcat & Hlen & _).
    assert (chunks' = chunks) as -> by congruence.
    split; [done|]. intros ->. destruct chunks as [|c chunks]; [done|].
    apply Forall_cons in Hlen as [Hc _]. simpl in Hcat.
    apply app_eq_nil in Hcat as [-> _]. simpl in Hc. lia.
  - destruct l as [|a l].
    + rewrite chunkWebHooks_nil in Hrun. injection Hrun as <-. done.
    + unfold chunkWebHooks in Hrun.
      rewrite chunk_while_stuck in Hrun; [done|lia|done|lia].
Qed.

Lemma chunkWebHooks_diverges {A} (l : list A) (size : Z) :
  (size ≤ 0)%Z → l ≠ [] → chunkWebHooks l size = Diverges.
Proof.
  intros Hsize Hl. unfold chunkWebHooks.
  rewrite chunk_while_stuck; [done|done|done|lia].
Qed.

Lemma chunkWebHooks_not_rejected {A} (l : list A) (size : Z) err :
  chunkWebHooks l size ≠ Rejected err.
Proof. unfold chunkWebHooks. by destruct (chunk_while _ _ _ _ _). Qed.

Lemma map_async_makeRequests {H} `{HookFields H} postData (chunks : list (list H)) w :
  ∃ batches,
    map_async (λ subset, makeRequests subset postData) chunks w
    = (map Fulfilled batches, (attempts postData (concat chunks) w).2) ∧
    concat (map Batch.failed batches) = failed (attempts postData (concat chunks) w).1 ∧
    concat (map Batch.success batches) = succeeded (attempts postData (concat chunks) w).1 ∧
    length batches = length chunks.
Proof.
  revert w. induction chunks as [|chunk chunks IH]; intros w.
  - by exists [].
  - simpl. rewrite makeRequests_attempts, groupResponses_partition, attempts_app.
    destruct (attempts postData chunk w) as [rs w1]. simpl.
    destruct (IH w1) as (batches & -> & Hf & Hs & Hlen).
    exists ({| Batch.success := succeeded rs; Batch.failed := failed rs |} :: batches).
    simpl. rewrite Hf, Hs, Hlen, failed_app, succeeded_app. done.
Qed.

Lemma await_all_makeRequests {H} `{HookFields H} postData (chunks : list (list H)) w :
  ∃ batches,
    await_all (λ subset, makeRequests subset postData) chunks w
    = (Fulfilled batches, (attempts postData (concat chunks) w).2) ∧
    concat (map Batch.failed batches) = failed (attempts postData (concat chunks) w).1 ∧
    concat (map Batch.success batches) = succeeded (attempts postData (concat chunks) w).1 ∧
    length batches = length chunks.
Proof.
  destruct (map_async_makeRequests postData chunks w) as (batches & Hrun & Hrest).
  exists batches. split; [|done].
  unfold await_all. by rewrite Hrun, Promise_all_fulfilled.
Qed.

Lemma dispatchRound_inv {H} `{HookFields H} size (hooks : list H) postData w batches w' :
  dispatchRound size hooks postData w = (Fulfilled batches, w') →
  w' = (attempts postData hooks w).2 ∧
  concat (map Batch.failed batches) = failed (attempts postData hooks w).1 ∧
  concat (map Batch.success batches) = succeeded (attempts postData hooks w).1 ∧
  (hooks = [] → batches = []).
Proof.
  unfold dispatchRound. intros Hrun.
  apply async_bind_fulfilled in Hrun as (chunks & w1 & Hchunk & Hrun).
  unfold async_call in Hchunk. injection Hchunk as Hchunk <-.
  apply chunkWebHooks_inv in Hchunk as [Hcat Hnil].
  destruct (await_all_makeRequests postData chunks w) as (bs & Hbs & Hf & Hs & Hlen).
  rewrite Hbs in Hrun. injection Hrun as <- <-. rewrite Hcat in *.
  repeat split; try done.
  intros Hh. apply Hnil in Hh. subst chunks. by destruct bs.
Qed.

Lemma dispatchRound_total {H} `{HookFields H} size (hooks : list H) postData w :
  (1 ≤ size)%Z ∨ hooks = [] →
  ∃ batches, dispatchRound size hooks postData w
             = (Fulfilled batches, (attempts postData hooks w).2).
Proof.
  intros Hsize.
  assert (∃ chunks, chunkWebHooks hooks size = Fulfilled chunks ∧ concat chunks = hooks)
    as (chunks & Hchunk & Hcat).
  { destruct Hsize as [Hsize| ->].
    - destruct (chunkWebHooks_chunking hooks size Hsize) as (chunks & ? & ? & _). eauto.
    - exists []. by rewrite chunkWebHooks_nil. }
  destruct (await_all_makeRequests postData chunks w) as (bs & Hbs & _).
  exists bs. unfold dispatchRound, async_bind, async_call.
  by rewrite Hchunk, Hbs, Hcat.
Qed.

Lemma dispatchRound_diverges {H} `{HookFields H} size (hooks : list H) postData w :
  (size ≤ 0)%Z → hooks ≠ [] → dispatchRound size hooks postData w = (Diverges, w).
Proof.
  intros Hsize Hh. unfold dispatchRound, async_bind, async_call.
  by rewrite chunkWebHooks_diverges.
Qed.

Lemma dispatchRound_not_rejected {H} `{HookFields H} size (hooks : list H) postData w err w' :
  dispatchRound size hooks postData w ≠ (Rejected err, w').
Proof.
  unfold dispatchRound, async_bind, async_call.
  destruct (chunkWebHooks hooks size) as [chunks| |] eqn:Hchunk.
  - destruct (await_all_makeRequests postData chunks w) as (bs & -> & _). done.
  - by apply chunkWebHooks_not_rejected in Hchunk.
  - done.
Qed.

(** The two [forEach] loops over the batches of a round. *)

Lemma firstRound_foldl (batches : list Batch.t) f0 s0 :
  foldl (λ '(failedRequests, successRequests) batch,
           (failedRequests ++ Batch.failed batch,
            successRequests ++ Batch.success batch))
        (f0, s0) batches
  = (f0 ++ concat (map Batch.failed batches), s0 ++ concat (map Batch.success batches)).
Proof.
  revert f0 s0. induction batches as [|b batches IH]; intros f0 s0.
  - simpl. by rewrite !app_nil_r.
  - simpl. rewrite IH. by rewrite <-!app_assoc.
Qed.

Lemma retryRound_foldl (key : string) (batches : list Batch.t) f0
    (r0 : gmap string (list Response)) :
  foldl (λ '(failedRequests, trigger_Report) batch,
           (failedRequests ++ Batch.failed batch,
            <[key := Batch.success batch]> trigger_Report))
        (f0, r0) batches
  = (f0 ++ concat (map Batch.failed batches),
     match last batches with
     | Some batch => <[key := Batch.success batch]> r0
     | None => r0
     end).
Proof.
  revert f0 r0. induction batches as [|b batches IH]; intros f0 r0.
  - simpl. by rewrite app_nil_r.
  - simpl foldl. rewrite IH. rewrite <-app_assoc. f_equal.
    destruct batches as [|b' batches]; [done|].
    rewrite last_cons_cons.
    destruct (last (b' :: batches)) as [b''|] eqn:Hlast.
    + by rewrite insert_insert_eq.
    + assert (is_Some (last (b' :: batches))) as [? ?] by by apply last_is_Some.
      congruence.
Qed.

Lemma firstRound_inv {H} `{HookFields H} size (hooks : list H) postData w F r w' :
  firstRound size hooks postData w = (Fulfilled (F, r), w') →
  w' = (attempts postData hooks w).2 ∧
  F = failed (attempts postData hooks w).1 ∧
  r = {["successRequests" := succeeded (attempts postData hooks w).1]}.
Proof.
  unfold firstRound. intros Hrun.
  apply async_bind_fulfilled in Hrun as (bs & w1 & Hbs & Hrun).
  apply dispatchRound_inv in Hbs as (-> & Hf & Hs & _).
  rewrite firstRound_foldl in Hrun. unfold async_ret in Hrun.
  injection Hrun as <- <- <-. by rewrite Hf, Hs.
Qed.

Lemma firstRound_total {H} `{HookFields H} size (hooks : list H) postData w :
  (1 ≤ size)%Z ∨ hooks = [] →
  firstRound size hooks postData w
  = (Fulfilled (failed (attempts postData hooks w).1,
                {["successRequests" := succeeded (attempts postData hooks w).1]}),
     (attempts postData hooks w).2).
Proof.
  intros Hsize.
  destruct (dispatchRound_total size hooks postData w Hsize) as (bs & Hbs).
  pose proof (dispatchRound_inv _ _ _ _ _ _ Hbs) as (_ & Hf & Hs & _).
  unfold firstRound. rewrite (async_bind_step _ _ _ _ _ Hbs).
  rewrite firstRound_foldl, Hf, Hs. done.
Qed.

Lemma retryRound_inv size postData i F r w F' r' w' :
  retryRound size postData i (F, r) w = (Fulfilled (F', r'), w') →
  w' = (attempts postData F w).2 ∧
  F' = failed (attempts postData F w).1 ∧
  (r' = r ∨ ∃ bucket, r' = <[retryKey i := bucket]> r ∧
                      ∀ x, x ∈ bucket → x ∈ succeeded (attempts postData F w).1) ∧
  (F = [] → r' = r).
Proof.
  unfold retryRound. intros Hrun.
  apply async_bind_fulfilled in Hrun as (bs & w1 & Hbs & Hrun).
  apply dispatchRound_inv in Hbs as (-> & Hf & Hs & Hnil).
  rewrite retryRound_foldl in Hrun. unfold async_ret in Hrun.
  injection Hrun as <- <- <-. rewrite Hf. repeat split; try done.
  - destruct (last bs) as [b|] eqn:Hlast; [|by left].
    right. exists (Batch.success b). split; [done|].
    intros x Hx. rewrite <-Hs. apply elem_of_concat.
    exists (Batch.success b). split; [done|].
    apply list_elem_of_fmap. exists b. split; [done|].
    by apply last_Some_elem_of.
  - intros HF. by rewrite (Hnil HF).
Qed.

Lemma retryRound_total size postData i F r w :
  (1 ≤ size)%Z ∨ F = [] →
  ∃ r', retryRound size postData i (F, r) w
        = (Fulfilled (failed (attempts postData F w).1, r'), (attempts postData F w).2).
Proof.
  intros Hsize.
  destruct (dispatchRound_total size F postData w Hsize) as (bs & Hbs).
  pose proof (dispatchRound_inv _ _ _ _ _ _ Hbs) as (_ & Hf & _).
  unfold retryRound. rewrite (async_bind_step _ _ _ _ _ Hbs).
  rewrite retryRound_foldl, Hf. unfold async_ret. eauto.
Qed.

(** A round that starts from an empty failure set issues no request and
    leaves the report as it is. *)
Lemma retryRound_idle size postData i r w :
  retryRound size postData i ([], r) w = (Fulfilled ([], r), w).
Proof.
  destruct (retryRound_total size postData i [] r w) as (r' & Hrun); [by right|].
  pose proof (retryRound_inv _ _ _ _ _ _ _ _ _ Hrun) as (_ & _ & _ & Hr).
  rewrite Hrun. simpl. by rewrite Hr.
Qed.

(** ** The keys of the report *)

Lemma retryKey_inj i j : retryKey i = retryKey j → i = j.
Proof.
  unfold retryKey. intros Heq. by simplify_eq.
Qed.

Lemma retryKey_not_failed i : retryKey i ≠ "failed".
Proof. done. Qed.

Lemma retryKey_not_successRequests i : retryKey i ≠ "successRequests".
Proof. done. Qed.

Lemma roundKey_not_failed k : roundKey k ≠ "failed".
Proof. unfold roundKey. by destruct (k =? 0)%Z. Qed.

(** ** The retry loop *)

Lemma failureSet_nil postData k w : failureSet postData k [] w = ([], w).
Proof. induction k as [|k IH]; [done|]. simpl. apply IH. Qed.

Lemma failureSet_add postData a b F w :
  failureSet postData (a + b) F w
  = failureSet postData b (failureSet postData a F w).1 (failureSet postData a F w).2.
Proof.
  revert F w. induction a as [|a IH]; intros F w; [done|].
  simpl. destruct (attempts postData F w) as [rs w1]. apply IH.
Qed.

Lemma failureSet_sublist postData k F w :
  ids (failureSet postData k F w).1 `sublist_of` ids F.
Proof.
  revert F w. induction k as [|k IH]; intros F w; [done|].
  simpl. pose proof (attempts_ids postData F w) as Hids.
  destruct (attempts postData F w) as [rs w1]. simpl in Hids.
  etrans; [apply IH|]. rewrite <-Hids. apply ids_failed_sublist.
Qed.

Lemma retryRounds_add a b size postData i st w :
  retryRounds (a + b) size postData i st w
  = async_bind (retryRounds a size postData i st)
               (retryRounds b size postData (i + Z.of_nat a)%Z) w.
Proof.
  revert i st w. induction a as [|a IH]; intros i st w.
  - simpl. unfold async_bind, async_ret. by rewrite Z.add_0_r.
  - replace (i + Z.of_nat (S a))%Z with (i + 1 + Z.of_nat a)%Z by lia.
    simpl. unfold async_bind.
    destruct (retryRound size postData i st w) as [[st'| |] w1]; [|done|done].
    apply IH.
Qed.

Lemma retryRounds_idle n size postData i r w :
  retryRounds n size postData i ([], r) w = (Fulfilled ([], r), w).
Proof.
  revert i. induction n as [|n IH]; intros i; [done|].
  simpl. rewrite (async_bind_step _ _ _ _ _ (retryRound_idle size postData i r w)).
  apply IH.
Qed.

Lemma retryRounds_total n size postData i F r w :
  (1 ≤ size)%Z →
  ∃ r', retryRounds n size postData i (F, r) w
        = (Fulfilled ((failureSet postData n F w).1, r'), (failureSet postData n F w).2).
Proof.
  intros Hsize. revert i F r w. induction n as [|n IH]; intros i F r w.
  - exists r. done.
  - destruct (retryRound_total size postData i F r w) as (r1 & Hrun); [by left|].
    simpl. rewrite (async_bind_step _ _ _ _ _ Hrun).
    destruct (attempts postData F w) as [rs w1]. simpl. apply IH.
Qed.

Lemma retryRounds_inv n size postData i F r w F' r' w' :
  retryRounds n size postData i (F, r) w = (Fulfilled (F', r'), w') →
  (F', w') = failureSet postData n F w ∧
  (∀ key, (∀ m, m < n → key ≠ retryKey (i + Z.of_nat m)) → r' !! key = r !! key) ∧
  (∀ key bucket, r' !! key = Some bucket →
     r !! key = Some bucket ∨
     ∃ m, m < n ∧ key = retryKey (i + Z.of_nat m) ∧
          ∀ x, x ∈ bucket →
            x ∈ succeeded (attempts postData (failureSet postData m F w).1
                                             (failureSet postData m F w).2).1).
Proof.
  revert i F r w. induction n as [|n IH]; intros i F r w Hrun.
  - simpl in Hrun. unfold async_ret in Hrun. injection Hrun as <- <- <-.
    split; [done|]. split; [done|]. intros key bucket Hkey. by left.
  - simpl in Hrun. apply async_bind_fulfilled in Hrun as ([F1 r1] & w1 & Hround & Hrun).
    apply retryRound_inv in Hround as (-> & -> & Hr1 & _).
    apply IH in Hrun as (Hfs & Hkeep & Hbuckets).
    simpl. destruct (attempts postData F w) as [rs w1] eqn:Hrs. simpl in *.
    split; [done|]. split.
    + intros key Hkey. rewrite Hkeep.
      * destruct Hr1 as [->|(bucket & -> & _)]; [done|].
        apply lookup_insert_ne. intros Heq. apply (Hkey 0); [lia|].
        by rewrite Z.add_0_r.
      * intros m Hm. replace (i + 1 + Z.of_nat m)%Z with (i + Z.of_nat (S m))%Z by lia.
        apply Hkey. lia.
    + intros key bucket Hkey.
      destruct (Hbuckets key bucket Hkey) as [Hold|(m & Hm & -> & Hsub)].
      * destruct Hr1 as [->|(bucket1 & -> & Hsub1)]; [by left|].
        destruct (decide (retryKey i = key)) as [<-|Hne].
        -- rewrite lookup_insert_eq in Hold. injection Hold as ->.
           right. exists 0. split; [lia|]. rewrite Z.add_0_r. split; [done|].
           simpl. by rewrite Hrs.
        -- rewrite lookup_insert_ne in Hold by done. by left.
      * right. exists (S m). split; [lia|]. split; [f_equal; lia|].
        simpl. by rewrite Hrs.
Qed.

Lemma retryRounds_not_rejected n size postData i st w err w' :
  retryRounds n size postData i st w ≠ (Rejected err, w').
Proof.
  revert i st w. induction n as [|n IH]; intros i [F r] w Hrun; [done|].
  cbn [retryRounds] in Hrun.
  apply async_bind_rejected in Hrun as [Hround|(st' & w1 & _ & Hrun)].
  - unfold retryRound in Hround.
    apply async_bind_rejected in Hround as [Hbs|(bs & w2 & _ & Hret)]; [|done].
    by apply dispatchRound_not_rejected in Hbs.
  - by apply IH in Hrun.
Qed.

(** ** The whole run *)

Lemma firstRound_not_rejected {H} `{HookFields H} size (hooks : list H) postData w err w' :
  firstRound size hooks postData w ≠ (Rejected err, w').
Proof.
  unfold firstRound. intros Hrun.
  apply async_bind_rejected in Hrun as [Hbs|(bs & w2 & _ & Hret)].
  - by apply dispatchRound_not_rejected in Hbs.
  - by destruct (foldl _ _ _).
Qed.

Lemma initateProcessing_total {H} `{HookFields H} settings (hooks : list H) postData w :
  (1 ≤ BATCH_SIZE settings)%Z →
  ∃ report w', initateProcessing settings hooks postData w = (Fulfilled report, w').
Proof.
  intros Hsize. unfold initateProcessing.
  rewrite (async_bind_step _ _ _ _ _
             (firstRound_total (BATCH_SIZE settings) hooks postData w (or_introl Hsize))).
  destruct (retryRounds_total (Z.to_nat (RETRY_COUNT settings - 1)) (BATCH_SIZE settings)
              postData 1 (failed (attempts postData hooks w).1)
              {["successRequests" := succeeded (attempts postData hooks w).1]}
              (attempts postData hooks w).2 Hsize) as (r' & Hrun).
  rewrite (async_bind_step _ _ _ _ _ Hrun). unfold async_ret. eauto.
Qed.

Lemma initateProcessing_inv {H} `{HookFields H} settings (hooks : list H) postData w
    report w' :
  initateProcessing settings hooks postData w = (Fulfilled report, w') →
  let F1 := failed (attempts postData hooks w).1 in
  let w1 := (attempts postData hooks w).2 in
  let n := Z.to_nat (RETRY_COUNT settings - 1) in
  w' = (failureSet postData n F1 w1).2 ∧
  report !! "failed" = Some (failureSet postData n F1 w1).1 ∧
  report !! "successRequests" = Some (succeeded (attempts postData hooks w).1) ∧
  (∀ key bucket, report !! key = Some bucket →
     key = "failed" ∨ key = "successRequests" ∨
     ∃ m, m < n ∧ key = retryKey (1 + Z.of_nat m) ∧
          ∀ x, x ∈ bucket →
            x ∈ succeeded (attempts postData (failureSet postData m F1 w1).1
                                             (failureSet postData m F1 w1).2).1).
Proof.
  unfold initateProcessing. intros Hrun.
  apply async_bind_fulfilled in Hrun as ([F r] & w1 & Hfirst & Hrun).
  apply firstRound_inv in Hfirst as (-> & -> & ->).
  apply async_bind_fulfilled in Hrun as ([Fn rn] & wn & Hloop & Hrun).
  apply retryRounds_inv in Hloop as (Hfs & Hkeep & Hbuckets).
  unfold async_ret in Hrun. injection Hrun as <- <-. simpl.
  rewrite <-Hfs. simpl. split; [done|]. split; [apply lookup_insert_eq|]. split.
  - rewrite lookup_insert_ne by done. rewrite Hkeep.
    + apply lookup_singleton_eq.
    + intros m _. apply not_eq_sym, retryKey_not_successRequests.
  - intros key bucket Hkey.
    destruct (decide (key = "failed")) as [->|Hne]; [by left|].
    rewrite lookup_insert_ne in Hkey by done.
    destruct (Hbuckets key bucket Hkey) as [Hold|Hnew].
    + apply lookup_singleton_Some in Hold as [<- _]. right. by left.
    + right. by right.
Qed.

Lemma beforeRound_inv {H} `{HookFields H} settings (hooks : list H) postData k w F r wk :
  beforeRound settings hooks postData k w = (Fulfilled (F, r), wk) →
  let F1 := failed (attempts postData hooks w).1 in
  let w1 := (attempts postData hooks w).2 in
  (F, wk) = failureSet postData (k - 1) F1 w1 ∧
  ∀ key, is_Some (r !! key) →
    key = "successRequests" ∨ ∃ m, m < k - 1 ∧ key = retryKey (1 + Z.of_nat m).
Proof.
  unfold beforeRound. intros Hrun.
  apply async_bind_fulfilled in Hrun as ([F0 r0] & w0 & Hfirst & Hrun).
  apply firstRound_inv in Hfirst as (-> & -> & ->).
  apply retryRounds_inv in Hrun as (Hfs & _ & Hbuckets).
  simpl. split; [done|]. intros key [bucket Hkey].
  destruct (Hbuckets key bucket Hkey) as [Hold|(m & Hm & -> & _)].
  - apply lookup_singleton_Some in Hold as [<- _]. by left.
  - right. eauto.
Qed.

Lemma beforeRound_total {H} `{HookFields H} settings (hooks : list H) postData k w :
  (1 ≤ BATCH_SIZE settings)%Z →
  ∃ F r wk, beforeRound settings hooks postData k w = (Fulfilled (F, r), wk).
Proof.
  intros Hsize. unfold beforeRound.
  rewrite (async_bind_step _ _ _ _ _
             (firstRound_total (BATCH_SIZE settings) hooks postData w (or_introl Hsize))).
  destruct (retryRounds_total (k - 1) (BATCH_SIZE settings)
              postData 1 (failed (attempts postData hooks w).1)
              {["successRequests" := succeeded (attempts postData hooks w).1]}
              (attempts postData hooks w).2 Hsize) as (r' & Hrun).
  rewrite Hrun. eauto.
Qed.

(** ** The chunker *)

Lemma chunking_of_tail {A} (size : Z) (c : list A) l chunks :
  chunking_of size l (c :: chunks) → chunking_of size (concat chunks) chunks.
Proof.
  intros (_ & Hlen & Hinit). split; [done|]. split.
  - by apply Forall_cons in Hlen as [_ ?].
  - intros init final ->.
    specialize (Hinit (c :: init) final eq_refl). by apply Forall_cons in Hinit as [_ ?].
Qed.

Lemma chunking_of_head {A} (size : Z) (c : list A) l chunks :
  chunking_of size l (c :: chunks) → c = take (Z.to_nat size) l.
Proof.
  intros (Hcat & Hlen & Hinit). simpl in Hcat. subst l.
  apply Forall_cons in Hlen as [Hc _].
  destruct chunks as [|c' chunks].
  - simpl. rewrite app_nil_r, take_ge; [done|lia].
  - assert (is_Some (last (c' :: chunks))) as [final Hlast] by by apply last_is_Some.
    apply last_Some in Hlast as [init Heq]. rewrite Heq in Hinit.
    specialize (Hinit (c :: init) final eq_refl). apply Forall_cons in Hinit as [Hsize _].
    rewrite take_app_length'; [done|lia].
Qed.

Lemma chunking_of_lookup {A} (size : Z) (l : list A) chunks k c :
  chunking_of size l chunks → chunks !! k = Some c →
  c = take (Z.to_nat size) (drop (k * Z.to_nat size) l).
Proof.
  revert l k. induction chunks as [|c0 chunks IH]; intros l k Hspec Hk; [done|].
  destruct k as [|k].
  - simpl in Hk. injection Hk as ->. simpl. by eapply chunking_of_head.
  - simpl in Hk.
    pose proof (chunking_of_head _ _ _ _ Hspec) as Hhead.
    pose proof (chunking_of_tail _ _ _ _ Hspec) as Htail.
    rewrite (IH _ _ Htail Hk).
    destruct Hspec as (Hcat & Hlen & Hinit). simpl in Hcat.
    assert (is_Some (last chunks)) as [final Hlast].
    { apply last_is_Some. intros ->. done. }
    apply last_Some in Hlast as [init Heq]. rewrite Heq in Hinit.
    specialize (Hinit (c0 :: init) final eq_refl). apply Forall_cons in Hinit as [Hsize _].
    f_equal. rewrite <-Hcat.
    replace (S k * Z.to_nat size) with (length c0 + k * Z.to_nat size) by lia.
    by rewrite drop_app_add'.
Qed.

(** C6: for every sequence and every size of at least 1, [chunkWebHooks]
    returns groups whose concatenation is the input, group [k] holding the
    elements from position [k * size] on, every group but the last of exactly
    [size] elements and the last of between 1 and [size]; an empty input
    gives no group at all. *)
Theorem C6_chunker_partitions_in_order {A} (l : list A) (size : Z) :
  (1 ≤ size)%Z →
  ∃ chunks,
    chunkWebHooks l size = Fulfilled chunks ∧
    concat chunks = l ∧
    Forall (λ c, (1 ≤ Z.of_nat (length c) ≤ size)%Z) chunks ∧
    (∀ init final, chunks = init ++ [final] →
       Forall (λ c, Z.of_nat (length c) = size) init) ∧
    (∀ k c, chunks !! k = Some c →
       c = take (Z.to_nat size) (drop (k * Z.to_nat size) l)) ∧
    (l = [] → chunks = []).
Proof.
  intros Hsize.
  destruct (chunkWebHooks_chunking l size Hsize) as (chunks & Hrun & Hspec).
  exists chunks. pose proof Hspec as (Hcat & Hlen & Hinit).
  repeat split; try done.
  - intros k c. by apply chunking_of_lookup.
  - by apply (chunkWebHooks_inv l size).
Qed.

(** ** The request executor and the batch runner *)

(** C4: a delivery attempt is never rejected: it is fulfilled with a
    response that carries the identifier, name and URL of the hook, whose
    flag is set exactly when the call resolved with status 200; a rejected
    call and any other status give a cleared flag. *)
Theorem C4_delivery_attempt_never_rejects {H} `{HookFields H} (hook : H) postData w :
  ∃ outcome,
    hookRequest postData hook w
    = (Fulfilled outcome, (axios_post (get_hookURL hook) postData w).2) ∧
    _id outcome = get_id hook ∧
    name outcome = get_name hook ∧
    hookURL outcome = get_hookURL hook ∧
    (success outcome = true ↔
       ∃ res, (axios_post (get_hookURL hook) postData w).1 = inl res ∧
              status res = 200%Z).
Proof.
  unfold hookRequest.
  destruct (axios_post (get_hookURL hook) postData w) as [[res|err] w']; simpl.
  - eexists. split; [done|]. repeat split; simpl.
    + destruct (Z.eqb_spec (status res) 200); [eauto|done].
    + intros (res' & [= <-] & ->). done.
  - eexists. split; [done|]. repeat split; simpl; [done|].
    by intros (res & ? & _).
Qed.

(** C5: the batch runner fulfils with a partition of the responses of its
    input: one response per hook, in input order and with the hook's
    identifier; the successes and the failures are the responses with the
    flag set and cleared, each in input order, so their lengths add up to
    the length of the input; and when the identifiers of the input are
    distinct, none is on both sides. The same holds of [groupResponses] on
    any sequence of responses. *)
Theorem C5_batch_runner_stable_partition {H} `{HookFields H} (hooks : list H) postData w
    (rs : list Response) :
  (∃ batch w' responses,
     makeRequests hooks postData w = (Fulfilled batch, w') ∧
     batch = groupResponses responses ∧
     ids responses = ids hooks ∧
     length (Batch.success batch) + length (Batch.failed batch) = length hooks ∧
     (NoDup (ids hooks) →
      ∀ id, id ∈ ids (Batch.success batch) → id ∉ ids (Batch.failed batch))) ∧
  Batch.success (groupResponses rs) = filter (λ r, success r = true) rs ∧
  Batch.failed (groupResponses rs) = filter (λ r, success r = false) rs ∧
  length (Batch.success (groupResponses rs)) + length (Batch.failed (groupResponses rs))
  = length rs ∧
  (NoDup (ids rs) →
   ∀ id, id ∈ ids (Batch.success (groupResponses rs)) →
         id ∉ ids (Batch.failed (groupResponses rs))).
Proof.
  split.
  - exists (groupResponses (attempts postData hooks w).1), (attempts postData hooks w).2,
      (attempts postData hooks w).1.
    split; [apply makeRequests_attempts|]. split; [done|].
    split; [apply attempts_ids|].
    rewrite groupResponses_partition. simpl. split.
    + by rewrite partition_length, attempts_length.
    + intros Hnd id. apply partition_ids_disjoint. by rewrite attempts_ids.
  - rewrite groupResponses_partition. simpl. split; [done|]. split; [done|].
    split; [apply partition_length|]. intros Hnd id. by apply partition_ids_disjoint.
Qed.

(** ** Runs of the retry coordinator *)

Lemma attempts_member {H} `{HookFields H} postData (hooks : list H) w id :
  id ∈ ids hooks → ∃ r, r ∈ (attempts postData hooks w).1 ∧ _id r = id.
Proof.
  rewrite <-(attempts_ids postData hooks w). unfold ids.
  intros (r & -> & Hr)%list_elem_of_fmap. eauto.
Qed.

Lemma round_disjoint {H} `{HookFields H} postData (hooks : list H) w k id :
  NoDup (ids hooks) →
  id ∈ ids (succeeded (attempts postData hooks w).1) →
  id ∉ ids (failureSet postData k (failed (attempts postData hooks w).1)
                       (attempts postData hooks w).2).1.
Proof.
  intros Hnd Hin Hf.
  apply (partition_ids_disjoint (attempts postData hooks w).1 id).
  - by rewrite attempts_ids.
  - done.
  - eapply elem_of_sublist; [exact Hf|apply failureSet_sublist].
Qed.

Lemma failureSet_keeps postData n F w id :
  id ∈ ids F →
  (∀ m, m < n →
     ∀ r, r ∈ (attempts postData (failureSet postData m F w).1
                                 (failureSet postData m F w).2).1 →
          _id r = id → success r = false) →
  id ∈ ids (failureSet postData n F w).1.
Proof.
  revert F w. induction n as [|n IH]; intros F w Hin Hfail; [done|].
  destruct (attempts_member postData F w id Hin) as (r & Hr & Hid).
  pose proof (Hfail 0 ltac:(lia) r Hr Hid) as Hflag.
  simpl. destruct (attempts postData F w) as [rs w1] eqn:Hrs. simpl in *.
  apply IH.
  - unfold ids. apply list_elem_of_fmap. exists r. split; [done|].
    by apply elem_of_failed.
  - intros m Hm. specialize (Hfail (S m) ltac:(lia)). simpl in Hfail.
    by rewrite Hrs in Hfail.
Qed.

Lemma elem_of_batchResponses {H} `{HookFields H} size (hooks : list H) postData w
    batches w' x :
  dispatchRound size hooks postData w = (Fulfilled batches, w') →
  x ∈ batchResponses batches ↔ x ∈ (attempts postData hooks w).1.
Proof.
  intros (_ & Hf & Hs & _)%dispatchRound_inv.
  assert (x ∈ (attempts postData hooks w).1 ↔
          x ∈ concat (map Batch.success batches) ∨ x ∈ concat (map Batch.failed batches))
    as ->.
  { rewrite Hf, Hs, elem_of_succeeded, elem_of_failed. split.
    - intros Hx. destruct (success x); [left|right]; done.
    - intros [[_ Hx]|[_ Hx]]; done. }
  unfold batchResponses. rewrite !elem_of_concat. split.
  - intros (l & Hx & (b & -> & Hb)%list_elem_of_fmap).
    apply elem_of_app in Hx as [Hx|Hx]; [left|right];
      eexists; (split; [exact Hx|]); apply list_elem_of_fmap; eauto.
  - intros [(l & Hx & (b & -> & Hb)%list_elem_of_fmap)
           |(l & Hx & (b & -> & Hb)%list_elem_of_fmap)];
      exists (Batch.success b ++ Batch.failed b);
      (split; [set_solver|]); apply list_elem_of_fmap; eauto.
Qed.

Lemma roundResponses_first {H} `{HookFields H} settings (hooks : list H) postData w :
  (1 ≤ BATCH_SIZE settings)%Z →
  ∃ rs w', roundResponses settings hooks postData 0 w = (Fulfilled rs, w') ∧
           ∀ x, x ∈ rs ↔ x ∈ (attempts postData hooks w).1.
Proof.
  intros Hsize. unfold roundResponses.
  destruct (dispatchRound_total (BATCH_SIZE settings) hooks postData w (or_introl Hsize))
    as (bs & Hbs).
  rewrite (async_bind_step _ _ _ _ _ Hbs). eexists _, _. split; [done|].
  intros x. by apply (elem_of_batchResponses _ _ _ _ _ _ _ Hbs).
Qed.

Lemma roundResponses_retry {H} `{HookFields H} settings (hooks : list H) postData w m :
  (1 ≤ BATCH_SIZE settings)%Z →
  let F1 := failed (attempts postData hooks w).1 in
  let w1 := (attempts postData hooks w).2 in
  ∃ rs w', roundResponses settings hooks postData (S m) w = (Fulfilled rs, w') ∧
           ∀ x, x ∈ rs ↔ x ∈ (attempts postData (failureSet postData m F1 w1).1
                                                (failureSet postData m F1 w1).2).1.
Proof.
  intros Hsize F1 w1. unfold roundResponses.
  destruct (beforeRound_total settings hooks postData (S m) w Hsize) as (F & r0 & wk & Hbefore).
  pose proof (beforeRound_inv _ _ _ _ _ _ _ _ Hbefore) as [Hfs _].
  replace (S m - 1) with m in Hfs by lia. fold F1 w1 in Hfs.
  rewrite (async_bind_step _ _ _ _ _ Hbefore).
  destruct (dispatchRound_total (BATCH_SIZE settings) F postData wk (or_introl Hsize))
    as (bs & Hbs).
  simpl. rewrite (async_bind_step _ _ _ _ _ Hbs). eexists _, _. split; [done|].
  intros x. rewrite <-Hfs. by apply (elem_of_batchResponses _ _ _ _ _ _ _ Hbs).
Qed.

Lemma failsInRound_first {H} `{HookFields H} settings (hooks : list H) postData w id :
  (1 ≤ BATCH_SIZE settings)%Z →
  failsInRound settings hooks postData w id 0 →
  ∀ r, r ∈ (attempts postData hooks w).1 → _id r = id → success r = false.
Proof.
  intros Hsize Hfail r Hr Hid. unfold failsInRound in Hfail.
  destruct (roundResponses_first settings hooks postData w Hsize) as (rs & w' & Hrun & Hrs).
  rewrite Hrun in Hfail. simpl in Hfail. rewrite Forall_forall in Hfail.
  apply Hfail; [|done]. by apply Hrs.
Qed.

Lemma failsInRound_retry {H} `{HookFields H} settings (hooks : list H) postData w id m :
  (1 ≤ BATCH_SIZE settings)%Z →
  failsInRound settings hooks postData w id (S m) →
  let F1 := failed (attempts postData hooks w).1 in
  let w1 := (attempts postData hooks w).2 in
  ∀ r, r ∈ (attempts postData (failureSet postData m F1 w1).1
                              (failureSet postData m F1 w1).2).1 →
       _id r = id → success r = false.
Proof.
  intros Hsize Hfail F1 w1 r Hr Hid. unfold failsInRound in Hfail.
  destruct (roundResponses_retry settings hooks postData w m Hsize) as (rs & w' & Hrun & Hrs).
  rewrite Hrun in Hfail. simpl in Hfail. rewrite Forall_forall in Hfail.
  apply Hfail; [|done]. by apply Hrs.
Qed.

Lemma ids_succeeded_subset (rs rs' : list Response) id :
  (∀ x, x ∈ rs → x ∈ rs') → id ∈ ids (succeeded rs) → id ∈ ids (succeeded rs').
Proof.
  unfold ids. intros Hsub (x & -> & Hx)%list_elem_of_fmap.
  apply list_elem_of_fmap. exists x. split; [done|].
  apply elem_of_succeeded in Hx as [Hflag Hx]. apply elem_of_succeeded. auto.
Qed.

Lemma retry_round_disjoint {H} `{HookFields H} postData (hooks : list H) w j k id :
  NoDup (ids hooks) → S j < k →
  let F1 := failed (attempts postData hooks w).1 in
  let w1 := (attempts postData hooks w).2 in
  id ∈ ids (succeeded (attempts postData (failureSet postData j F1 w1).1
                                         (failureSet postData j F1 w1).2).1) →
  id ∉ ids (failureSet postData (k - 1) F1 w1).1.
Proof.
  intros Hnd Hjk F1 w1 Hin.
  replace (k - 1) with (j + S (k - 2 - j)) by lia.
  rewrite failureSet_add. simpl.
  set (Fj := (failureSet postData j F1 w1).1) in *.
  set (wj := (failureSet postData j F1 w1).2) in *.
  pose proof (round_disjoint postData Fj wj (k - 2 - j) id) as Hdisj.
  destruct (attempts postData Fj wj) as [rs w2] eqn:Hrs. simpl in *.
  apply Hdisj; [|done].
  eapply sublist_NoDup; [|apply failureSet_sublist].
  eapply sublist_NoDup; [|apply ids_failed_sublist].
  by rewrite attempts_ids.
Qed.

(** C2: in a run on hooks with distinct identifiers, an identifier found in
    the bucket of round [j] of the report is not in the failure set that any
    later round [k] starts from; the same holds of every identifier whose
    attempt succeeded in round [j], in the report or not: an endpoint that
    succeeded is not contacted again. *)
Theorem C2_successes_never_recontacted {H} `{HookFields H} settings (hooks : list H)
    postData w :
  (1 ≤ BATCH_SIZE settings)%Z →
  NoDup (ids hooks) →
  ∃ report w',
    initateProcessing settings hooks postData w = (Fulfilled report, w') ∧
    ∀ (j k : nat),
      j < k → (Z.of_nat k < RETRY_COUNT settings)%Z →
      ∃ rs wj F r wk,
        roundResponses settings hooks postData j w = (Fulfilled rs, wj) ∧
        beforeRound settings hooks postData k w = (Fulfilled (F, r), wk) ∧
        (∀ id, inBucket report (roundKey (Z.of_nat j)) id → id ∉ ids F) ∧
        (∀ id, id ∈ ids (succeeded rs) → id ∉ ids F).
Proof.
  intros Hsize Hnd.
  destruct (initateProcessing_total settings hooks postData w Hsize) as (report & w' & Hrun).
  exists report, w'. split; [done|]. intros j k Hjk _.
  destruct (beforeRound_total settings hooks postData k w Hsize) as (F & r & wk & Hbefore).
  pose proof (beforeRound_inv _ _ _ _ _ _ _ _ Hbefore) as [Hfs _].
  apply initateProcessing_inv in Hrun as (_ & _ & Hsucc & Hbuckets).
  apply (f_equal fst) in Hfs. simpl in Hfs.
  destruct j as [|j].
  - destruct (roundResponses_first settings hooks postData w Hsize) as (rs & wj & Hround & Hrs).
    exists rs, wj, F, r, wk. split; [done|]. split; [done|]. rewrite Hfs. split.
    + intros id (bucket & Hlook & Hin).
      change (roundKey (Z.of_nat 0)) with "successRequests" in Hlook.
      rewrite Hsucc in Hlook. injection Hlook as <-. by apply round_disjoint.
    + intros id Hin. apply round_disjoint; [done|].
      eapply ids_succeeded_subset; [|exact Hin]. intros x. apply Hrs.
  - destruct (roundResponses_retry settings hooks postData w j Hsize)
      as (rs & wj & Hround & Hrs).
    exists rs, wj, F, r, wk. split; [done|]. split; [done|]. rewrite Hfs. split.
    + intros id (bucket & Hlook & Hin).
      assert (roundKey (Z.of_nat (S j)) = retryKey (1 + Z.of_nat j)) as Hkey.
      { unfold roundKey. destruct (Z.eqb_spec (Z.of_nat (S j)) 0); [lia|]. f_equal. lia. }
      rewrite Hkey in Hlook.
      destruct (Hbuckets _ _ Hlook) as [Hbad|[Hbad|(m & Hm & Heq & Hsub)]].
      { by apply retryKey_not_failed in Hbad. }
      { by apply retryKey_not_successRequests in Hbad. }
      apply retryKey_inj in Heq. assert (m = j) as -> by lia.
      apply (retry_round_disjoint postData hooks w j k id Hnd Hjk).
      unfold ids in *. apply list_elem_of_fmap in Hin as (x & -> & Hx).
      apply list_elem_of_fmap. eauto.
    + intros id Hin. apply (retry_round_disjoint postData hooks w j k id Hnd Hjk).
      eapply ids_succeeded_subset; [|exact Hin]. intros x. apply Hrs.
Qed.

(** C8: when the configuration is valid and no attempt on a hook of the
    input succeeds in any round of the run, the run ends with a report
    whose bucket [failed] holds the hook's identifier, and no other bucket
    does. *)
Theorem C8_retry_exhaustion {H} `{HookFields H} settings (hooks : list H) postData w hook :
  (1 ≤ BATCH_SIZE settings)%Z →
  (1 ≤ RETRY_COUNT settings)%Z →
  hook ∈ hooks →
  (∀ k : nat, (Z.of_nat k < RETRY_COUNT settings)%Z →
              failsInRound settings hooks postData w (get_id hook) k) →
  ∃ report w',
    initateProcessing settings hooks postData w = (Fulfilled report, w') ∧
    inBucket report "failed" (get_id hook) ∧
    ∀ key, key ≠ "failed" → ¬ inBucket report key (get_id hook).
Proof.
  intros Hsize Hcount Hhook Hfails.
  destruct (initateProcessing_total settings hooks postData w Hsize) as (report & w' & Hrun).
  exists report, w'. split; [done|].
  apply initateProcessing_inv in Hrun as (_ & Hfailed & Hsucc & Hbuckets).
  pose proof (failsInRound_first settings hooks postData w (get_id hook) Hsize
                (Hfails 0 ltac:(lia))) as Hfirst.
  assert (Hretry : ∀ m, m < Z.to_nat (RETRY_COUNT settings - 1) →
            ∀ r, r ∈ (attempts postData
                        (failureSet postData m (failed (attempts postData hooks w).1)
                                    (attempts postData hooks w).2).1
                        (failureSet postData m (failed (attempts postData hooks w).1)
                                    (attempts postData hooks w).2).2).1 →
                 _id r = get_id hook → success r = false).
  { intros m Hm. apply (failsInRound_retry settings hooks postData w _ m Hsize).
    apply Hfails. lia. }
  split.
  - exists (failureSet postData (Z.to_nat (RETRY_COUNT settings - 1))
              (failed (attempts postData hooks w).1) (attempts postData hooks w).2).1.
    split; [done|]. apply failureSet_keeps; [|done].
    destruct (attempts_member postData hooks w (get_id hook)) as (r & Hr & Hid).
    { unfold ids. apply list_elem_of_fmap. eauto. }
    unfold ids. apply list_elem_of_fmap. exists r. split; [done|].
    apply elem_of_failed. split; [|done]. by apply Hfirst.
  - intros key Hkey (bucket & Hlook & Hin).
    unfold ids in Hin. apply list_elem_of_fmap in Hin as (x & Hid & Hx). simpl in Hid.
    destruct (Hbuckets _ _ Hlook) as [->|[->|(m & Hm & -> & Hsub)]]; [done| |].
    + rewrite Hsucc in Hlook. injection Hlook as <-.
      apply elem_of_succeeded in Hx as [Hflag Hx].
      rewrite (Hfirst x Hx) in Hflag; done.
    + apply Hsub, elem_of_succeeded in Hx as [Hflag Hx].
      rewrite (Hretry m Hm x Hx) in Hflag; done.
Qed.

(** ** Nothing to dispatch *)

Lemma initateProcessing_nil {H} `{HookFields H} settings postData w :
  initateProcessing settings (@nil H) postData w = (Fulfilled emptyReport, w).
Proof.
  unfold initateProcessing.
  rewrite (async_bind_step _ _ _ _ _
             (firstRound_total (BATCH_SIZE settings) (@nil H) postData w
                (or_intror eq_refl))).
  simpl. by rewrite (async_bind_step _ _ _ _ _ (retryRounds_idle _ _ _ _ _ _)).
Qed.

(** C9: when the adapter finds no hook, [trigger] is fulfilled with the
    report whose buckets [successRequests] and [failed] are empty; the
    report has no other key, so no bucket of it holds anything, and no
    request is issued. *)
Theorem C9_empty_source_empty_report (this : Settings) (ipadr : string) (w : World) :
  (adapter_find (Date_getTime w).2).1 = inl [] →
  ∃ report,
    trigger this ipadr w = (Fulfilled report, (adapter_find (Date_getTime w).2).2) ∧
    report !! "successRequests" = Some [] ∧
    report !! "failed" = Some [] ∧
    (∀ i, report !! retryKey i = None) ∧
    (∀ key bucket, report !! key = Some bucket → bucket = []).
Proof.
  intros Hfind. exists emptyReport. unfold emptyReport.
  split; [|split; [done|split; [done|split]]].
  - unfold trigger, async_bind.
    destruct (Date_getTime w) as [t w0]. simpl in *.
    destruct (adapter_find w0) as [found w1]. simpl in *. subst found.
    by rewrite initateProcessing_nil.
  - intros i. rewrite lookup_insert_ne by (apply not_eq_sym, retryKey_not_failed).
    apply lookup_singleton_ne, not_eq_sym, retryKey_not_successRequests.
  - intros key bucket Hkey.
    apply lookup_insert_Some in Hkey as [[_ <-]|[_ Hkey]]; [done|].
    by apply lookup_singleton_Some in Hkey as [_ <-].
Qed.

(** C10: when retry round [i] starts from an empty failure set, the round
    issues no request (it leaves the world and the report as they are), the
    run ends in that same world, and its report has no key
    [retrySuccess<i>]. *)
Theorem C10_idle_round_leaves_no_key {H} `{HookFields H} settings (hooks : list H)
    postData w (i : nat) r wi :
  1 ≤ i → (Z.of_nat i < RETRY_COUNT settings)%Z →
  beforeRound settings hooks postData i w = (Fulfilled ([], r), wi) →
  retryRound (BATCH_SIZE settings) postData (Z.of_nat i) ([], r) wi
  = (Fulfilled ([], r), wi) ∧
  ∃ report,
    initateProcessing settings hooks postData w = (Fulfilled report, wi) ∧
    report !! retryKey (Z.of_nat i) = None.
Proof.
  intros Hi Hcount Hbefore. split; [apply retryRound_idle|].
  pose proof (beforeRound_inv _ _ _ _ _ _ _ _ Hbefore) as [_ Hkeys].
  unfold beforeRound in Hbefore.
  apply async_bind_fulfilled in Hbefore as (st0 & w0 & Hfirst & Hloop).
  exists (<["failed" := []]> r). split.
  - unfold initateProcessing. rewrite (async_bind_step _ _ _ _ _ Hfirst).
    replace (Z.to_nat (RETRY_COUNT settings - 1))
      with ((i - 1) + (Z.to_nat (RETRY_COUNT settings) - i)) by lia.
    unfold async_bind at 1. rewrite retryRounds_add.
    rewrite (async_bind_step _ _ _ _ _ Hloop). by rewrite retryRounds_idle.
  - rewrite lookup_insert_ne by (apply not_eq_sym, retryKey_not_failed).
    apply eq_None_not_Some. intros [Hbad|(m & Hm & Heq)]%Hkeys.
    + by apply retryKey_not_successRequests in Hbad.
    + apply retryKey_inj in Heq. lia.
Qed.
(** ** Invalid configuration *)

Lemma initateProcessing_not_rejected {H} `{HookFields H} settings (hooks : list H)
    postData w err w' :
  initateProcessing settings hooks postData w ≠ (Rejected err, w').
Proof.
  unfold initateProcessing. intros Hrun.
  apply async_bind_rejected in Hrun as [Hfirst|(st & w1 & _ & Hrun)].
  - by apply firstRound_not_rejected in Hfirst.
  - apply async_bind_rejected in Hrun as [Hloop|([F r] & w2 & _ & Hret)]; [|done].
    by apply retryRounds_not_rejected in Hloop.
Qed.

Lemma initateProcessing_diverges {H} `{HookFields H} settings (hooks : list H) postData w :
  (BATCH_SIZE settings ≤ 0)%Z → hooks ≠ [] →
  initateProcessing settings hooks postData w = (Diverges, w).
Proof.
  intros Hsize Hhooks. unfold initateProcessing, firstRound, async_bind.
  by rewrite dispatchRound_diverges.
Qed.

(** C7, as the code has it: neither the chunker nor the dispatcher checks
    its arguments. [chunkWebHooks] is never rejected; with a size below 1 it
    returns no group for an empty input and does not return for any other.
    [initateProcessing] is never rejected; with a batch size below 1 it
    returns the empty report for an empty list of hooks and does not return
    for any other, and with a retry count below 1 it runs as with a retry
    count of 1. *)
Theorem C7_no_argument_check {A H} `{HookFields H} (l : list A) (size : Z)
    settings (hooks : list H) postData w :
  (∀ err, chunkWebHooks l size ≠ Rejected err) ∧
  ((size ≤ 0)%Z → l = [] → chunkWebHooks l size = Fulfilled []) ∧
  ((size ≤ 0)%Z → l ≠ [] →
     chunkWebHooks l size = Diverges ∧ ∀ fuel, chunk_while fuel l size 0 [] = None) ∧
  (∀ err w', initateProcessing settings hooks postData w ≠ (Rejected err, w')) ∧
  ((BATCH_SIZE settings ≤ 0)%Z → hooks = [] →
     initateProcessing settings hooks postData w = (Fulfilled emptyReport, w)) ∧
  ((BATCH_SIZE settings ≤ 0)%Z → hooks ≠ [] →
     initateProcessing settings hooks postData w = (Diverges, w)) ∧
  ((RETRY_COUNT settings < 1)%Z →
     initateProcessing settings hooks postData w
     = initateProcessing {| BATCH_SIZE := BATCH_SIZE settings; RETRY_COUNT := 1 |}
         hooks postData w).
Proof.
  split; [intros err; apply chunkWebHooks_not_rejected|].
  split; [by intros _ ->|].
  split.
  { intros Hsize Hl. split; [by apply chunkWebHooks_diverges|].
    intros fuel. by apply chunk_while_stuck. }
  split; [intros err w'; apply initateProcessing_not_rejected|].
  split; [intros _ ->; apply initateProcessing_nil|].
  split; [apply initateProcessing_diverges|].
  intros Hcount. unfold initateProcessing. simpl.
  by replace (Z.to_nat (RETRY_COUNT settings - 1)) with (Z.to_nat (1 - 1)) by lia.
Qed.
End dispatcher.

(** The chunker on four elements in groups of three. *)
Lemma C6_chunker_witness :
  ∃ chunks, chunkWebHooks [1; 2; 3; 4] 3 = Fulfilled chunks ∧ concat chunks = [1; 2; 3; 4].
Proof.
  destruct (C6_chunker_partitions_in_order [1; 2; 3; 4] 3) as (chunks & Hrun & Hcat & _).
  - lia.
  - exists chunks. split; [exact Hrun|exact Hcat].
Defined.

(** Two hooks, the first answering 200 and the second refusing. *)
Lemma C5_batch_runner_witness :
  NoDup (ids (seedHooks 2)) ∧
  ∃ batch w',
    @makeRequests (scripted [] (λ n, bool_decide (n = 0))) _ _ (seedHooks 2) examplePost 0
    = (Fulfilled batch, w') ∧
    ∀ id, id ∈ ids (Batch.success batch) → id ∉ ids (Batch.failed batch).
Proof.
  assert (Hnd : NoDup (ids (seedHooks 2))) by (apply (bool_decide_unpack _); vm_compute; exact I).
  split; [exact Hnd|].
  destruct (@C5_batch_runner_stable_partition (scripted [] (λ n, bool_decide (n = 0))) _ _
              (seedHooks 2) examplePost 0 [])
    as [(batch & w' & responses & Hrun & _ & _ & _ & Hdisj) _].
  exists batch, w'. split; [exact Hrun|]. exact (Hdisj Hnd).
Defined.

(** A size of zero: no error is raised, for an empty input or for any other,
    and the dispatcher runs with a batch size and a retry count of zero. *)
Lemma C7_counterexample :
  chunkWebHooks ["h"] 0 = Diverges ∧
  chunkWebHooks (@nil string) 0 = Fulfilled [] ∧
  @initateProcessing (byURL [] []) _ _ {| BATCH_SIZE := 0; RETRY_COUNT := 0 |}
    (seedHooks 0) examplePost () = (Fulfilled emptyReport, ()).
Proof. repeat split; vm_compute; reflexivity. Qed.

Lemma C7_no_argument_check_witness :
  (0 ≤ 0)%Z ∧ seedHooks 1 ≠ [] ∧
  chunkWebHooks (seedHooks 1) 0 = Diverges ∧
  @initateProcessing (byURL [] []) _ _ {| BATCH_SIZE := 0; RETRY_COUNT := 3 |}
    (seedHooks 1) examplePost () = (Diverges, ()).
Proof.
  assert (Hsize : (0 ≤ 0)%Z) by lia.
  assert (Hne : seedHooks 1 ≠ []) by discriminate.
  destruct (@C7_no_argument_check (byURL [] []) _ _ _ (seedHooks 1) 0
              {| BATCH_SIZE := 0; RETRY_COUNT := 3 |} (seedHooks 1) examplePost ())
    as (_ & _ & Hchunk & _ & _ & Hrun & _).
  split; [exact Hsize|]. split; [exact Hne|].
  split; [exact (proj1 (Hchunk Hsize Hne))|exact (Hrun Hsize Hne)].
Defined.

(** ** The scenarios of the service on five hooks *)

(** The third hook is down throughout: the other four succeed in the first
    pass, both retry rounds try the third and record no success. *)
Example scenario_hook_down :
  @initateProcessing (byURL [] ["http://localhost:4002"]) _ _ settings (seedHooks 5)
    examplePost ()
  = (Fulfilled
       (<["failed" := [{| success := false; hookURL := "http://localhost:4002";
                          _id := "2"; name := "Server#2" |}]]>
          (<[retryKey 2 := []]>
             (<[retryKey 1 := []]>
                {["successRequests" := map seedSuccess [0; 1; 3; 4]]}))), ()).
Proof. vm_compute. reflexivity. Qed.

(** The third hook refuses the first pass and answers the retry: it is in
    [retrySuccess1], and round 2 has no key. *)
Example scenario_hook_recovers :
  @initateProcessing (scripted [] (λ n, bool_decide (n ≠ 2))) _ _ settings (seedHooks 5)
    examplePost 0
  = (Fulfilled
       (<["failed" := []]>
          (<[retryKey 1 := [seedSuccess 2]]>
             {["successRequests" := map seedSuccess [0; 1; 3; 4]]})), 6).
Proof. vm_compute. reflexivity. Qed.

(** ** The retry bucket keeps the last chunk only *)

(** C1, at eleven hooks that all refuse the first pass and all answer 200 in
    retry round 1: the run is fulfilled with a report in which the hook with
    identifier 0 is in no bucket. *)
Theorem C1_endpoint_lost_from_report :
  ∃ report w',
    @initateProcessing (refuseFirst 11) _ _ settings (seedHooks 11) examplePost 0
    = (Fulfilled report, w') ∧
    "0" ∈ ids (seedHooks 11) ∧
    ∀ key, ¬ inBucket report key "0".
Proof.
  exists (<["failed" := []]>
            (<[retryKey 1 := [seedSuccess 10]]> {["successRequests" := []]})), 22.
  split; [vm_compute; reflexivity|]. split.
  - apply list_elem_of_lookup. by exists 0.
  - intros key (bucket & Hlook & Hin).
    apply lookup_insert_Some in Hlook as [[_ <-]|[_ Hlook]]; [by apply elem_of_nil in Hin|].
    apply lookup_insert_Some in Hlook as [[_ <-]|[_ Hlook]].
    + apply list_elem_of_singleton in Hin. vm_compute in Hin. discriminate Hin.
    + apply lookup_singleton_Some in Hlook as [_ <-]. by apply elem_of_nil in Hin.
Qed.

(** C3, at the same run: all eleven attempts of retry round 1 succeed, and
    the report binds [retrySuccess1] to the success of the second chunk
    alone. *)
Theorem C3_round_successes_overwritten :
  ∃ report w' rs w1,
    @initateProcessing (refuseFirst 11) _ _ settings (seedHooks 11) examplePost 0
    = (Fulfilled report, w') ∧
    @roundResponses (refuseFirst 11) _ _ settings (seedHooks 11) examplePost 1 0
    = (Fulfilled rs, w1) ∧
    succeeded rs = map seedSuccess (seq 0 11) ∧
    report !! retryKey 1 = Some [seedSuccess 10].
Proof.
  exists (<["failed" := []]>
            (<[retryKey 1 := [seedSuccess 10]]> {["successRequests" := []]})), 22,
    (map seedSuccess (seq 0 11)), 22.
  split; [vm_compute; reflexivity|]. split; [vm_compute; reflexivity|].
  split; [vm_compute; reflexivity|]. done.
Qed.

(** ** Concrete runs *)

(** Three hooks of which the second refuses the first pass only. *)
Lemma C2_successes_never_recontacted_witness :
  (1 ≤ BATCH_SIZE settings)%Z ∧ NoDup (ids (seedHooks 3)) ∧
  ∃ report w',
    @initateProcessing (scripted [] (λ n, bool_decide (n ≠ 1))) _ _ settings (seedHooks 3)
      examplePost 0 = (Fulfilled report, w') ∧
    ∀ (j k : nat),
      j < k → (Z.of_nat k < RETRY_COUNT settings)%Z →
      ∃ rs wj F r wk,
        @roundResponses (scripted [] (λ n, bool_decide (n ≠ 1))) _ _ settings (seedHooks 3)
          examplePost j 0 = (Fulfilled rs, wj) ∧
        @beforeRound (scripted [] (λ n, bool_decide (n ≠ 1))) _ _ settings (seedHooks 3)
          examplePost k 0 = (Fulfilled (F, r), wk) ∧
        (∀ id, inBucket report (roundKey (Z.of_nat j)) id → id ∉ ids F) ∧
        (∀ id, id ∈ ids (succeeded rs) → id ∉ ids F).
Proof.
  assert (Hsize : (1 ≤ BATCH_SIZE settings)%Z) by (simpl; lia).
  assert (Hnd : NoDup (ids (seedHooks 3)))
    by (apply (bool_decide_unpack _); vm_compute; exact I).
  split; [exact Hsize|]. split; [exact Hnd|].
  exact (@C2_successes_never_recontacted (scripted [] (λ n, bool_decide (n ≠ 1))) _ _
           settings (seedHooks 3) examplePost 0 Hsize Hnd).
Defined.

(** Five hooks of which the third is down in every round. *)
Lemma C8_retry_exhaustion_witness :
  ∃ report w',
    @initateProcessing (byURL [] ["http://localhost:4002"]) _ _ settings (seedHooks 5)
      examplePost () = (Fulfilled report, w') ∧
    inBucket report "failed" "2" ∧
    ∀ key, key ≠ "failed" → ¬ inBucket report key "2".
Proof.
  set (hook := {| WebHook._id := "2"; WebHook.name := "Server#2";
                  WebHook.hookURL := "http://localhost:4002" |}).
  assert (Hsize : (1 ≤ BATCH_SIZE settings)%Z) by (simpl; lia).
  assert (Hcount : (1 ≤ RETRY_COUNT settings)%Z) by (simpl; lia).
  assert (Hhook : hook ∈ seedHooks 5) by (apply list_elem_of_lookup; by exists 2).
  assert (Hfails : ∀ k : nat, (Z.of_nat k < RETRY_COUNT settings)%Z →
            @failsInRound (byURL [] ["http://localhost:4002"]) _ _ settings (seedHooks 5)
              examplePost () (get_id hook) k).
  { intros k Hk. destruct k as [|[|[|k]]]; [| | |simpl in Hk; lia];
      vm_compute;
      repeat (constructor; [intros Heq; first [reflexivity|discriminate Heq]|]);
      constructor. }
  exact (@C8_retry_exhaustion (byURL [] ["http://localhost:4002"]) _ _ settings
           (seedHooks 5) examplePost () hook Hsize Hcount Hhook Hfails).
Defined.

(** An empty database. *)
Lemma C9_empty_source_witness :
  ∃ report,
    @trigger (byURL [] []) settings "10.0.0.1" () = (Fulfilled report, ()) ∧
    report !! "successRequests" = Some [] ∧
    report !! "failed" = Some [] ∧
    (∀ i, report !! retryKey i = None) ∧
    (∀ key bucket, report !! key = Some bucket → bucket = []).
Proof.
  apply (@C9_empty_source_empty_report (byURL [] []) settings "10.0.0.1" ()).
  reflexivity.
Defined.

(** Two hooks that answer 200 at once: retry round 1 has nothing to do. *)
Lemma C10_idle_round_witness :
  ∃ report,
    @initateProcessing (byURL [] []) _ _ settings (seedHooks 2) examplePost ()
    = (Fulfilled report, ()) ∧
    report !! retryKey 1 = None.
Proof.
  refine (proj2 (@C10_idle_round_leaves_no_key (byURL [] []) _ _ settings (seedHooks 2)
                   examplePost () 1 {["successRequests" := map seedSuccess (seq 0 2)]} ()
                   _ _ _)).
  - lia.
  - simpl. lia.
  - vm_compute. reflexivity.
Defined.

(** * Further properties of the service *)

Section properties.
Context `{T : Transport}.

(** ** The number of chunks *)

Lemma concat_full_length {A} (size : Z) (init : list (list A)) :
  Forall (λ c, Z.of_nat (length c) = size) init →
  Z.of_nat (length (concat init)) = (size * Z.of_nat (length init))%Z.
Proof.
  induction 1 as [|c init Hc _ IH]; simpl; [lia|].
  rewrite length_app. lia.
Qed.

Lemma chunking_of_count {A} (size : Z) (l : list A) chunks :
  (1 ≤ size)%Z → chunking_of size l chunks →
  Z.of_nat (length chunks) = ((Z.of_nat (length l) + size - 1) / size)%Z.
Proof.
  intros Hsize (Hcat & Hlen & Hinit).
  destruct (last chunks) as [final|] eqn:Hlast.
  - apply last_Some in Hlast as [init ->].
    specialize (Hinit init final eq_refl).
    apply Forall_app in Hlen as [_ [Hfinal _]%Forall_cons].
    pose proof (concat_full_length size init Hinit) as Hfull.
    rewrite <-Hcat, concat_app, !length_app. simpl. rewrite app_nil_r.
    apply (Z.div_unique _ _ _ (Z.of_nat (length final) - 1)); lia.
  - apply last_None in Hlast. subst chunks. simpl in Hcat. subst l. simpl.
    symmetry. apply Z.div_small. lia.
Qed.

(** X1: for a size of at least 1 the chunker returns the quotient of the
    length by the size, rounded up, as its number of groups. *)
Theorem chunkWebHooks_count {A} (l : list A) (size : Z) :
  (1 ≤ size)%Z →
  ∃ chunks,
    chunkWebHooks l size = Fulfilled chunks ∧
    Z.of_nat (length chunks) = ((Z.of_nat (length l) + size - 1) / size)%Z.
Proof.
  intros Hsize.
  destruct (chunkWebHooks_chunking l size Hsize) as (chunks & Hrun & Hspec).
  exists chunks. split; [done|]. by apply chunking_of_count.
Qed.

Lemma chunking_of_one {A} (size : Z) (l : list A) chunks :
  l ≠ [] → (Z.of_nat (length l) ≤ size)%Z → chunking_of size l chunks → chunks = [l].
Proof.
  intros Hl Hfit Hspec.
  assert (Hsize : (1 ≤ size)%Z) by (destruct l; [done|simpl in Hfit; lia]).
  pose proof (chunking_of_count size l chunks Hsize Hspec) as Hcount.
  assert (((Z.of_nat (length l) + size - 1) / size)%Z = 1%Z) as Hone.
  { symmetry. apply (Z.div_unique _ _ _ (Z.of_nat (length l) - 1)); [|lia].
    destruct l; [done|]. cbn [length] in *. lia. }
  rewrite Hone in Hcount. destruct Hspec as (Hcat & _).
  destruct chunks as [|c [|c' chunks]]; cbn [length] in Hcount; [lia| |lia].
  simpl in Hcat. rewrite app_nil_r in Hcat. by subst c.
Qed.

Lemma chunkWebHooks_one {A} (l : list A) (size : Z) :
  l ≠ [] → (Z.of_nat (length l) ≤ size)%Z → chunkWebHooks l size = Fulfilled [l].
Proof.
  intros Hl Hfit.
  assert (Hsize : (1 ≤ size)%Z) by (destruct l; [done|simpl in Hfit; lia]).
  destruct (chunkWebHooks_chunking l size Hsize) as (chunks & -> & Hspec).
  f_equal. by apply (chunking_of_one size l).
Qed.

(** X2: a non-empty input of at most [size] elements comes back as one
    group, the input itself. *)
Theorem chunkWebHooks_single_chunk {A} (l : list A) (size : Z) :
  l ≠ [] → (Z.of_nat (length l) ≤ size)%Z → chunkWebHooks l size = Fulfilled [l].
Proof.
  intros Hl Hfit.
  assert (Hlen : (1 ≤ Z.of_nat (length l))%Z) by (destruct l; [done|simpl; lia]).
  destruct (chunkWebHooks_chunking l size) as (chunks & Hrun & Hspec); [lia|].
  rewrite Hrun. f_equal. by apply (chunking_of_one size l).
Qed.

(** ** Where the buckets of a report come from *)

Lemma ids_succeeded_sublist (rs : list Response) : ids (succeeded rs) `sublist_of` ids rs.
Proof. unfold ids, succeeded. apply fmap_sublist, sublist_filter. Qed.

Lemma retryRound_bucket size postData i F r w F' r' w' :
  retryRound size postData i (F, r) w = (Fulfilled (F', r'), w') →
  r' = r ∨
  ∃ bucket, r' = <[retryKey i := bucket]> r ∧
            bucket `sublist_of` succeeded (attempts postData F w).1.
Proof.
  unfold retryRound. intros Hrun.
  apply async_bind_fulfilled in Hrun as (bs & w1 & Hbs & Hrun).
  apply dispatchRound_inv in Hbs as (-> & _ & Hs & _).
  rewrite retryRound_foldl in Hrun. unfold async_ret in Hrun.
  injection Hrun as <- <- <-.
  destruct (last bs) as [b|] eqn:Hlast; [|by left].
  right. exists (Batch.success b). split; [done|].
  apply last_Some in Hlast as [bs' ->].
  rewrite <-Hs, map_app, concat_app. simpl. rewrite app_nil_r.
  by apply sublist_inserts_l.
Qed.

Lemma retryRounds_buckets n size postData i F r w F' r' w' :
  retryRounds n size postData i (F, r) w = (Fulfilled (F', r'), w') →
  ∀ key bucket, r' !! key = Some bucket →
    r !! key = Some bucket ∨
    ∃ m, m < n ∧ key = retryKey (i + Z.of_nat m) ∧
         bucket `sublist_of`
           succeeded (attempts postData (failureSet postData m F w).1
                                        (failureSet postData m F w).2).1.
Proof.
  revert i F r w. induction n as [|n IH]; intros i F r w Hrun key bucket Hkey.
  - simpl in Hrun. unfold async_ret in Hrun. injection Hrun as <- <- <-. by left.
  - simpl in Hrun. apply async_bind_fulfilled in Hrun as ([F1 r1] & w1 & Hround & Hrun).
    pose proof (retryRound_bucket _ _ _ _ _ _ _ _ _ Hround) as Hr1.
    apply retryRound_inv in Hround as (-> & -> & _ & _).
    destruct (IH _ _ _ _ Hrun key bucket Hkey) as [Hold|(m & Hm & -> & Hsub)].
    + destruct Hr1 as [->|(bucket1 & -> & Hsub1)]; [by left|].
      destruct (decide (retryKey i = key)) as [<-|Hne].
      * rewrite lookup_insert_eq in Hold. injection Hold as ->.
        right. exists 0. split; [lia|]. rewrite Z.add_0_r. done.
      * rewrite lookup_insert_ne in Hold by done. by left.
    + right. exists (S m). split; [lia|]. split; [f_equal; lia|].
      simpl. by destruct (attempts postData F w).
Qed.

Lemma report_buckets {H} `{HookFields H} settings (hooks : list H) postData w report w' :
  initateProcessing settings hooks postData w = (Fulfilled report, w') →
  let F1 := failed (attempts postData hooks w).1 in
  let w1 := (attempts postData hooks w).2 in
  let n := Z.to_nat (RETRY_COUNT settings - 1) in
  ∀ key bucket, report !! key = Some bucket →
    (key = "failed" ∧ bucket = (failureSet postData n F1 w1).1) ∨
    (key = "successRequests" ∧ bucket = succeeded (attempts postData hooks w).1) ∨
    ∃ m, m < n ∧ key = retryKey (1 + Z.of_nat m) ∧
         bucket `sublist_of`
           succeeded (attempts postData (failureSet postData m F1 w1).1
                                        (failureSet postData m F1 w1).2).1.
Proof.
  intros Hrun F1 w1 n key bucket Hkey.
  pose proof (initateProcessing_inv _ _ _ _ _ _ Hrun) as (_ & Hfailed & _).
  unfold initateProcessing in Hrun.
  apply async_bind_fulfilled in Hrun as ([F r] & w0 & Hfirst & Hrun).
  apply firstRound_inv in Hfirst as (-> & -> & ->).
  apply async_bind_fulfilled in Hrun as ([Fn rn] & wn & Hloop & Hrun).
  pose proof (retryRounds_buckets _ _ _ _ _ _ _ _ _ _ Hloop) as Hbuckets.
  unfold async_ret in Hrun. injection Hrun as <- <-.
  destruct (decide (key = "failed")) as [->|Hne].
  - left. split; [done|]. fold F1 w1 n in Hfailed. congruence.
  - right. rewrite lookup_insert_ne in Hkey by done.
    destruct (Hbuckets key bucket Hkey) as [Hold|Hnew]; [|by right].
    apply lookup_singleton_Some in Hold as [<- <-]. by left.
Qed.

Lemma failureSet_failed postData k F w :
  Forall (λ r, success r = false) F →
  Forall (λ r, success r = false) (failureSet postData k F w).1.
Proof.
  revert F w. induction k as [|k IH]; intros F w HF; [done|].
  simpl. destruct (attempts postData F w) as [rs w1]. apply IH.
  apply Forall_forall. by intros r [? _]%elem_of_failed.
Qed.

Lemma attempts_carries {H} `{HookFields H} postData (hooks : list H) w x :
  x ∈ (attempts postData hooks w).1 → ∃ hook, hook ∈ hooks ∧ carries hook x.
Proof.
  revert w. induction hooks as [|hook hooks IH]; intros w; simpl.
  - by intros ?%elem_of_nil.
  - pose proof (attempt_fields postData hook w) as Hfields.
    destruct (attempt postData hook w) as [r w1].
    specialize (IH w1). destruct (attempts postData hooks w1) as [rs w2]. simpl in *.
    intros [->|Hx]%elem_of_cons.
    + exists hook. split; [left|done].
    + destruct (IH Hx) as (h & Hh & Hc). exists h. split; [by right|done].
Qed.

Lemma failureSet_carries {H} `{HookFields H} (hooks : list H) postData k F w :
  (∀ x, x ∈ F → ∃ hook, hook ∈ hooks ∧ carries hook x) →
  ∀ x, x ∈ (failureSet postData k F w).1 → ∃ hook, hook ∈ hooks ∧ carries hook x.
Proof.
  revert F w. induction k as [|k IH]; intros F w HF; [done|].
  simpl. pose proof (attempts_carries postData F w) as Hrs.
  destruct (attempts postData F w) as [rs w1]. simpl in Hrs.
  apply IH. intros x [_ Hx]%elem_of_failed.
  destruct (Hrs x Hx) as (r & Hr & Hid & Hname & Hurl).
  destruct (HF r Hr) as (hook & Hhook & Hid' & Hname' & Hurl').
  exists hook. split; [done|]. unfold carries. simpl in *.
  split; [congruence|]. split; congruence.
Qed.

Lemma ids_succeeded_input {H} `{HookFields H} postData (hooks : list H) w id :
  id ∈ ids (succeeded (attempts postData hooks w).1) → id ∈ ids hooks.
Proof.
  intros Hin. rewrite <-(attempts_ids postData hooks w).
  eapply elem_of_sublist; [exact Hin|apply ids_succeeded_sublist].
Qed.

Lemma ids_elem_of_sublist (l1 l2 : list Response) id :
  l1 `sublist_of` l2 → id ∈ ids l1 → id ∈ ids l2.
Proof.
  intros Hsub Hin. eapply elem_of_sublist; [exact Hin|]. unfold ids. by apply fmap_sublist.
Qed.

(** ** Properties of the report *)

(** X5: a run with a batch size of at least 1 returns a report that has the
    keys [successRequests] and [failed], and whose other keys are all of the
    form [retrySuccess<i>] with [1 ≤ i < RETRY_COUNT]. *)
Theorem report_keys {H} `{HookFields H} settings (hooks : list H) postData w :
  (1 ≤ BATCH_SIZE settings)%Z →
  ∃ report w',
    initateProcessing settings hooks postData w = (Fulfilled report, w') ∧
    is_Some (report !! "successRequests") ∧
    is_Some (report !! "failed") ∧
    ∀ key, is_Some (report !! key) →
      key = "successRequests" ∨ key = "failed" ∨
      ∃ i, (1 ≤ i < RETRY_COUNT settings)%Z ∧ key = retryKey i.
Proof.
  intros Hsize.
  destruct (initateProcessing_total settings hooks postData w Hsize) as (report & w' & Hrun).
  exists report, w'. split; [done|].
  apply initateProcessing_inv in Hrun as (_ & Hfailed & Hsucc & Hbuckets).
  split; [by eexists|]. split; [by eexists|].
  intros key [bucket Hkey].
  destruct (Hbuckets key bucket Hkey) as [->|[->|(m & Hm & -> & _)]]; [by right; left|by left|].
  right. right. exists (1 + Z.of_nat m)%Z. split; [lia|done].
Qed.

(** X6: in the report of a run every response of the bucket [failed] has a
    cleared flag and every response of any other bucket has the flag set. *)
Theorem report_flags {H} `{HookFields H} settings (hooks : list H) postData w :
  (1 ≤ BATCH_SIZE settings)%Z →
  ∃ report w',
    initateProcessing settings hooks postData w = (Fulfilled report, w') ∧
    ∀ key bucket x, report !! key = Some bucket → x ∈ bucket →
      success x = (if decide (key = "failed") then false else true).
Proof.
  intros Hsize.
  destruct (initateProcessing_total settings hooks postData w Hsize) as (report & w' & Hrun).
  exists report, w'. split; [done|]. intros key bucket x Hkey Hx.
  destruct (report_buckets _ _ _ _ _ _ Hrun key bucket Hkey)
    as [[-> ->]|[[-> ->]|(m & _ & -> & Hsub)]].
  - rewrite decide_True by done.
    assert (Hall : Forall (λ r, success r = false)
              (failureSet postData (Z.to_nat (RETRY_COUNT settings - 1))
                 (failed (attempts postData hooks w).1) (attempts postData hooks w).2).1).
    { apply failureSet_failed, Forall_forall. by intros r [? _]%elem_of_failed. }
    rewrite Forall_forall in Hall. by apply Hall.
  - rewrite decide_False by done. by apply elem_of_succeeded in Hx as [? _].
  - rewrite decide_False by apply retryKey_not_failed.
    eapply elem_of_sublist in Hx; [|exact Hsub]. by apply elem_of_succeeded in Hx as [? _].
Qed.

(** X7: every response in every bucket of the report carries the identifier,
    the name and the URL of one of the hooks the run was given, whatever the
    round it was recorded in. *)
Theorem report_carries_hooks {H} `{HookFields H} settings (hooks : list H) postData w :
  (1 ≤ BATCH_SIZE settings)%Z →
  ∃ report w',
    initateProcessing settings hooks postData w = (Fulfilled report, w') ∧
    ∀ key bucket x, report !! key = Some bucket → x ∈ bucket →
      ∃ hook, hook ∈ hooks ∧ carries hook x.
Proof.
  intros Hsize.
  destruct (initateProcessing_total settings hooks postData w Hsize) as (report & w' & Hrun).
  exists report, w'. split; [done|]. intros key bucket x Hkey Hx.
  assert (Hfs : ∀ k y,
            y ∈ (failureSet postData k (failed (attempts postData hooks w).1)
                            (attempts postData hooks w).2).1 →
            ∃ hook, hook ∈ hooks ∧ carries hook y).
  { intros k. apply failureSet_carries. intros y [_ Hy]%elem_of_failed.
    by apply (attempts_carries postData hooks w). }
  destruct (report_buckets _ _ _ _ _ _ Hrun key bucket Hkey)
    as [[-> ->]|[[-> ->]|(m & _ & -> & Hsub)]].
  - by eapply Hfs.
  - apply elem_of_succeeded in Hx as [_ Hx]. by apply (attempts_carries postData hooks w).
  - eapply elem_of_sublist in Hx; [|exact Hsub]. apply elem_of_succeeded in Hx as [_ Hx].
    apply attempts_carries in Hx as (r & Hr & Hid & Hname & Hurl).
    destruct (Hfs m r Hr) as (hook & Hhook & Hid' & Hname' & Hurl').
    exists hook. split; [done|]. unfold carries. simpl in *.
    split; [congruence|]. split; congruence.
Qed.

(** X9: the identifiers of every bucket of the report are a sub-sequence of
    the identifiers of the hooks the run was given: a bucket lists endpoints
    in the order of the input, and none twice when the input has none
    twice. *)
Theorem report_buckets_in_input_order {H} `{HookFields H} settings (hooks : list H)
    postData w :
  (1 ≤ BATCH_SIZE settings)%Z →
  ∃ report w',
    initateProcessing settings hooks postData w = (Fulfilled report, w') ∧
    ∀ key bucket, report !! key = Some bucket →
      ids bucket `sublist_of` ids hooks ∧ (NoDup (ids hooks) → NoDup (ids bucket)).
Proof.
  intros Hsize.
  destruct (initateProcessing_total settings hooks postData w Hsize) as (report & w' & Hrun).
  exists report, w'. split; [done|]. intros key bucket Hkey.
  assert (Hsub : ids bucket `sublist_of` ids hooks).
  { assert (HF1 : ids (failed (attempts postData hooks w).1) `sublist_of` ids hooks).
    { rewrite <-(attempts_ids postData hooks w). apply ids_failed_sublist. }
    destruct (report_buckets _ _ _ _ _ _ Hrun key bucket Hkey)
      as [[-> ->]|[[-> ->]|(m & _ & -> & Hsub)]].
    - etrans; [apply failureSet_sublist|done].
    - rewrite <-(attempts_ids postData hooks w). apply ids_succeeded_sublist.
    - etrans; [unfold ids; apply fmap_sublist, Hsub|].
      etrans; [apply ids_succeeded_sublist|].
      rewrite attempts_ids. etrans; [apply failureSet_sublist|done]. }
  split; [done|]. intros Hnd. by eapply sublist_NoDup.
Qed.

(** ** No endpoint in two buckets *)

Lemma bucket_origin {H} `{HookFields H} settings (hooks : list H) postData w report w'
    key id :
  initateProcessing settings hooks postData w = (Fulfilled report, w') →
  inBucket report key id →
  let F1 := failed (attempts postData hooks w).1 in
  let w1 := (attempts postData hooks w).2 in
  let n := Z.to_nat (RETRY_COUNT settings - 1) in
  (key = "failed" ∧ id ∈ ids (failureSet postData n F1 w1).1) ∨
  (key = "successRequests" ∧ id ∈ ids (succeeded (attempts postData hooks w).1)) ∨
  ∃ m, m < n ∧ key = retryKey (1 + Z.of_nat m) ∧
       id ∈ ids (succeeded (attempts postData (failureSet postData m F1 w1).1
                                              (failureSet postData m F1 w1).2).1).
Proof.
  intros Hrun (bucket & Hkey & Hin) F1 w1 n.
  destruct (report_buckets _ _ _ _ _ _ Hrun key bucket Hkey)
    as [[-> ->]|[[-> ->]|(m & Hm & -> & Hsub)]]; [by left|by right; left|].
  right. right. exists m. split; [done|]. split; [done|].
  by eapply ids_elem_of_sublist.
Qed.

Lemma clash_first_retry {H} `{HookFields H} postData (hooks : list H) w m id :
  NoDup (ids hooks) →
  let F1 := failed (attempts postData hooks w).1 in
  let w1 := (attempts postData hooks w).2 in
  id ∈ ids (succeeded (attempts postData hooks w).1) →
  id ∈ ids (succeeded (attempts postData (failureSet postData m F1 w1).1
                                         (failureSet postData m F1 w1).2).1) →
  False.
Proof.
  intros Hnd F1 w1 Hfirst Hretry. apply ids_succeeded_input in Hretry.
  by apply (round_disjoint postData hooks w m id Hnd Hfirst).
Qed.

Lemma clash_retry_failed {H} `{HookFields H} postData (hooks : list H) w m k id :
  NoDup (ids hooks) → m < k →
  let F1 := failed (attempts postData hooks w).1 in
  let w1 := (attempts postData hooks w).2 in
  id ∈ ids (succeeded (attempts postData (failureSet postData m F1 w1).1
                                         (failureSet postData m F1 w1).2).1) →
  id ∈ ids (failureSet postData k F1 w1).1 →
  False.
Proof.
  intros Hnd Hmk F1 w1 Hretry Hfailed.
  pose proof (retry_round_disjoint postData hooks w m (S k) id Hnd ltac:(lia) Hretry) as Hdisj.
  replace (S k - 1) with k in Hdisj by lia. done.
Qed.

Lemma clash_retry_retry {H} `{HookFields H} postData (hooks : list H) w m m' id :
  NoDup (ids hooks) → m < m' →
  let F1 := failed (attempts postData hooks w).1 in
  let w1 := (attempts postData hooks w).2 in
  id ∈ ids (succeeded (attempts postData (failureSet postData m F1 w1).1
                                         (failureSet postData m F1 w1).2).1) →
  id ∈ ids (succeeded (attempts postData (failureSet postData m' F1 w1).1
                                         (failureSet postData m' F1 w1).2).1) →
  False.
Proof.
  intros Hnd Hlt F1 w1 Hm Hm'. apply ids_succeeded_input in Hm'.
  by apply (clash_retry_failed postData hooks w m m' id Hnd Hlt Hm).
Qed.

(** X8: in a run on hooks with distinct identifiers no identifier is in two
    buckets of the report. *)
Theorem report_buckets_disjoint {H} `{HookFields H} settings (hooks : list H) postData w :
  (1 ≤ BATCH_SIZE settings)%Z →
  NoDup (ids hooks) →
  ∃ report w',
    initateProcessing settings hooks postData w = (Fulfilled report, w') ∧
    ∀ key1 key2 id, inBucket report key1 id → inBucket report key2 id → key1 = key2.
Proof.
  intros Hsize Hnd.
  destruct (initateProcessing_total settings hooks postData w Hsize) as (report & w' & Hrun).
  exists report, w'. split; [done|]. intros key1 key2 id Hin1 Hin2.
  destruct (bucket_origin _ _ _ _ _ _ _ _ Hrun Hin1)
    as [[-> Hf1]|[[-> Hs1]|(m1 & Hm1 & -> & Hr1)]];
  destruct (bucket_origin _ _ _ _ _ _ _ _ Hrun Hin2)
    as [[-> Hf2]|[[-> Hs2]|(m2 & Hm2 & -> & Hr2)]]; try done.
  - destruct (round_disjoint postData hooks w _ id Hnd Hs2 Hf1).
  - destruct (clash_retry_failed postData hooks w m2 _ id Hnd Hm2 Hr2 Hf1).
  - destruct (round_disjoint postData hooks w _ id Hnd Hs1 Hf2).
  - destruct (clash_first_retry postData hooks w m2 id Hnd Hs1 Hr2).
  - destruct (clash_retry_failed postData hooks w m1 _ id Hnd Hm1 Hr1 Hf2).
  - destruct (clash_first_retry postData hooks w m1 id Hnd Hs2 Hr1).
  - destruct (lt_eq_lt_dec m1 m2) as [[Hlt| ->]|Hlt]; [|done|].
    + destruct (clash_retry_retry postData hooks w m1 m2 id Hnd Hlt Hr1 Hr2).
    + destruct (clash_retry_retry postData hooks w m2 m1 id Hnd Hlt Hr2 Hr1).
Qed.

(** X11: in a run on hooks with distinct identifiers, an identifier in the
    bucket [failed] is the identifier of a hook of the input none of whose
    attempts succeeded, in the first pass or in any retry round of the run. *)
Theorem failed_bucket_never_succeeded {H} `{HookFields H} settings (hooks : list H)
    postData w :
  (1 ≤ BATCH_SIZE settings)%Z →
  NoDup (ids hooks) →
  ∃ report w',
    initateProcessing settings hooks postData w = (Fulfilled report, w') ∧
    ∀ id, inBucket report "failed" id →
      id ∈ ids hooks ∧
      ∀ k : nat, (Z.of_nat k < Z.max 1 (RETRY_COUNT settings))%Z →
                 failsInRound settings hooks postData w id k.
Proof.
  intros Hsize Hnd.
  destruct (initateProcessing_total settings hooks postData w Hsize) as (report & w' & Hrun).
  exists report, w'. split; [done|]. intros id Hin.
  destruct (bucket_origin _ _ _ _ _ _ _ _ Hrun Hin)
    as [[_ Hfailed]|[[Hbad _]|(m & _ & Hbad & _)]]; [|done|].
  2: { symmetry in Hbad. by apply retryKey_not_failed in Hbad. }
  split.
  - eapply elem_of_sublist; [exact Hfailed|].
    etrans; [apply failureSet_sublist|].
    rewrite <-(attempts_ids postData hooks w). apply ids_failed_sublist.
  - intros k Hk. unfold failsInRound. destruct k as [|m].
    + destruct (roundResponses_first settings hooks postData w Hsize) as (rs & wr & -> & Hrs).
      simpl. apply Forall_forall. intros r Hr Hid.
      destruct (success r) eqn:Hflag; [|done]. exfalso.
      apply (round_disjoint postData hooks w (Z.to_nat (RETRY_COUNT settings - 1)) id Hnd);
        [|done].
      unfold ids. apply list_elem_of_fmap. exists r. split; [done|].
      apply elem_of_succeeded. split; [done|]. by apply Hrs.
    + destruct (roundResponses_retry settings hooks postData w m Hsize)
        as (rs & wr & -> & Hrs).
      simpl. apply Forall_forall. intros r Hr Hid.
      destruct (success r) eqn:Hflag; [|done]. exfalso.
      apply (clash_retry_failed postData hooks w m (Z.to_nat (RETRY_COUNT settings - 1)) id
               Hnd); [lia| |done].
      unfold ids. apply list_elem_of_fmap. exists r. split; [done|].
      apply elem_of_succeeded. split; [done|]. by apply Hrs.
Qed.

(** ** What the batch size does not change *)

(** X3: two runs from the same world that differ in the batch size only,
    both at least 1, issue the same requests (they end in the same world) and
    return reports with the same buckets [successRequests] and [failed]. *)
Theorem batch_size_independent {H} `{HookFields H} settings1 settings2 (hooks : list H)
    postData w :
  (1 ≤ BATCH_SIZE settings1)%Z →
  (1 ≤ BATCH_SIZE settings2)%Z →
  RETRY_COUNT settings1 = RETRY_COUNT settings2 →
  ∃ report1 report2 w',
    initateProcessing settings1 hooks postData w = (Fulfilled report1, w') ∧
    initateProcessing settings2 hooks postData w = (Fulfilled report2, w') ∧
    report1 !! "successRequests" = report2 !! "successRequests" ∧
    report1 !! "failed" = report2 !! "failed".
Proof.
  intros Hsize1 Hsize2 Hcount.
  destruct (initateProcessing_total settings1 hooks postData w Hsize1)
    as (report1 & w1 & Hrun1).
  destruct (initateProcessing_total settings2 hooks postData w Hsize2)
    as (report2 & w2 & Hrun2).
  pose proof (initateProcessing_inv _ _ _ _ _ _ Hrun1) as (Hw1 & Hf1 & Hs1 & _).
  pose proof (initateProcessing_inv _ _ _ _ _ _ Hrun2) as (Hw2 & Hf2 & Hs2 & _).
  simpl in *. rewrite <-Hcount in Hw2, Hf2.
  exists report1, report2, w1. split; [done|]. split; [congruence|].
  split; congruence.
Qed.

(** ** Errors of the trigger action *)

(** X4: [trigger] is rejected exactly when [this.adapter.find] is, with the
    error of the adapter and in the world the adapter left: no request has
    been issued, and a dispatch that has started never rejects. *)
Theorem trigger_rejected_iff (this : Settings) (ipadr : string) (w : World) err w' :
  trigger this ipadr w = (Rejected err, w') ↔
  adapter_find (Date_getTime w).2 = (inr err, w').
Proof.
  unfold trigger. split.
  - intros Hrun. apply async_bind_rejected in Hrun as [Hclock|(t & w0 & Hclock & Hrun)].
    { by destruct (Date_getTime w). }
    destruct (Date_getTime w) as [t' w0'] eqn:Ht. injection Hclock as <- <-. simpl.
    apply async_bind_rejected in Hrun as [Hfind|(hooks & w1 & _ & Hrun)].
    + destruct (adapter_find w0') as [[hooks|err'] w1]; [done|]. by injection Hfind as <- <-.
    + apply async_bind_rejected in Hrun as [Hrun|(data & w2 & _ & Hret)]; [|done].
      by apply initateProcessing_not_rejected in Hrun.
  - intros Hfind. unfold async_bind.
    destruct (Date_getTime w) as [t w0]. simpl in Hfind. by rewrite Hfind.
Qed.

(** ** When every hook is accounted for *)

Lemma dispatchRound_single {H} `{HookFields H} size (hooks : list H) postData w :
  hooks ≠ [] → (Z.of_nat (length hooks) ≤ size)%Z →
  dispatchRound size hooks postData w
  = (Fulfilled [groupResponses (attempts postData hooks w).1], (attempts postData hooks w).2).
Proof.
  intros Hne Hfit. unfold dispatchRound, async_bind, async_call.
  rewrite (chunkWebHooks_one hooks size Hne Hfit).
  unfold await_all. simpl. rewrite makeRequests_attempts.
  by destruct (attempts postData hooks w).
Qed.

Lemma retryRound_single size postData i F r w :
  F ≠ [] → (Z.of_nat (length F) ≤ size)%Z →
  retryRound size postData i (F, r) w
  = (Fulfilled (failed (attempts postData F w).1,
                <[retryKey i := succeeded (attempts postData F w).1]> r),
     (attempts postData F w).2).
Proof.
  intros Hne Hfit. unfold retryRound.
  rewrite (async_bind_step _ _ _ _ _ (dispatchRound_single size F postData w Hne Hfit)).
  simpl. by rewrite groupResponses_partition.
Qed.

Lemma retryRounds_covers n size postData i F r w F' r' w' :
  n = 0 ∨ (Z.of_nat (length F) ≤ size)%Z →
  r !! "failed" = None →
  (∀ j, (i ≤ j)%Z → r !! retryKey j = None) →
  retryRounds n size postData i (F, r) w = (Fulfilled (F', r'), w') →
  r' !! "failed" = None ∧
  ∀ id, (∃ key, inBucket r key id) ∨ id ∈ ids F →
        (∃ key, inBucket r' key id) ∨ id ∈ ids F'.
Proof.
  revert i F r w. induction n as [|n IH]; intros i F r w Hfit Hnof Hfresh Hrun.
  - simpl in Hrun. unfold async_ret in Hrun. by injection Hrun as <- <- <-.
  - destruct Hfit as [?|Hfit]; [done|]. cbn [retryRounds] in Hrun.
    apply async_bind_fulfilled in Hrun as ([F1 r1] & w1 & Hround & Hrun).
    destruct (decide (F = [])) as [->|Hne].
    + rewrite retryRound_idle in Hround. injection Hround as <- <- <-.
      apply IH in Hrun; [done|by right|done|].
      intros j Hj. apply Hfresh. lia.
    + rewrite (retryRound_single size postData i F r w Hne Hfit) in Hround.
      injection Hround as <- <- <-.
      apply IH in Hrun as [Hnof' Hcover].
      * split; [done|]. intros id Hid. apply Hcover.
        destruct Hid as [(key & bucket & Hkey & Hin)|Hin].
        -- left. exists key, bucket. split; [|done].
           rewrite lookup_insert_ne; [done|]. intros <-.
           rewrite Hfresh in Hkey by lia. done.
        -- destruct (attempts_member postData F w id Hin) as (x & Hx & Hidx).
           destruct (success x) eqn:Hflag.
           ++ left. exists (retryKey i), (succeeded (attempts postData F w).1).
              split; [apply lookup_insert_eq|].
              unfold ids. apply list_elem_of_fmap. exists x. split; [done|].
              by apply elem_of_succeeded.
           ++ right. unfold ids. apply list_elem_of_fmap. exists x. split; [done|].
              by apply elem_of_failed.
      * right. pose proof (attempts_length postData F w) as Hlen.
        pose proof (length_filter (λ x, success x = false) (attempts postData F w).1) as Hle.
        unfold failed. lia.
      * rewrite lookup_insert_ne; [done|]. apply retryKey_not_failed.
      * intros j Hj. rewrite lookup_insert_ne; [apply Hfresh; lia|].
        intros Heq%retryKey_inj. lia.
Qed.

(** X10: when retries are off ([RETRY_COUNT ≤ 1]) or at most [BATCH_SIZE]
    attempts of the first pass fail, every hook of the input has its
    identifier in a bucket of the report. *)
Theorem report_complete {H} `{HookFields H} settings (hooks : list H) postData w :
  (1 ≤ BATCH_SIZE settings)%Z →
  (RETRY_COUNT settings ≤ 1)%Z ∨
  (Z.of_nat (length (failed (attempts postData hooks w).1)) ≤ BATCH_SIZE settings)%Z →
  ∃ report w',
    initateProcessing settings hooks postData w = (Fulfilled report, w') ∧
    ∀ hook, hook ∈ hooks → ∃ key, inBucket report key (get_id hook).
Proof.
  intros Hsize Hfit.
  destruct (initateProcessing_total settings hooks postData w Hsize) as (report & w' & Hrun).
  exists report, w'. split; [done|]. intros hook Hhook.
  unfold initateProcessing in Hrun.
  apply async_bind_fulfilled in Hrun as ([F r] & w0 & Hfirst & Hrun).
  apply firstRound_inv in Hfirst as (-> & -> & ->).
  apply async_bind_fulfilled in Hrun as ([Fn rn] & wn & Hloop & Hrun).
  unfold async_ret in Hrun. injection Hrun as <- <-.
  apply retryRounds_covers in Hloop as [Hnof Hcover].
  - destruct (Hcover (get_id hook)) as [(key & bucket & Hkey & Hin)|Hin].
    + destruct (attempts_member postData hooks w (get_id hook)) as (x & Hx & Hid).
      { unfold ids. apply list_elem_of_fmap. eauto. }
      destruct (success x) eqn:Hflag.
      * left. exists "successRequests", (succeeded (attempts postData hooks w).1).
        split; [apply lookup_singleton_eq|].
        unfold ids. apply list_elem_of_fmap. exists x. split; [done|].
        by apply elem_of_succeeded.
      * right. unfold ids. apply list_elem_of_fmap. exists x. split; [done|].
        by apply elem_of_failed.
    + exists key, bucket. split; [|done]. rewrite lookup_insert_ne; [done|].
      intros <-. congruence.
    + exists "failed", Fn. split; [apply lookup_insert_eq|done].
  - destruct Hfit as [Hcount|Hfit]; [left; lia|by right].
  - done.
  - intros j _. apply lookup_singleton_ne, not_eq_sym, retryKey_not_successRequests.
Qed.

Lemma failed_nil_succeeded (rs : list Response) : failed rs = [] → succeeded rs = rs.
Proof.
  unfold failed, succeeded. induction rs as [|r rs IH]; [done|].
  destruct (success r) eqn:Hflag.
  - rewrite filter_cons_False by congruence. rewrite filter_cons_True by done.
    intros Hnil. by rewrite IH.
  - rewrite filter_cons_True by done. done.
Qed.

(** X14: when every attempt of the first pass succeeds, the run issues no
    further request and returns the report with the two keys
    [successRequests], bound to one response per hook in input order, and
    [failed], bound to the empty array. *)
Theorem all_succeed_first_pass {H} `{HookFields H} settings (hooks : list H) postData w :
  (1 ≤ BATCH_SIZE settings)%Z →
  failed (attempts postData hooks w).1 = [] →
  initateProcessing settings hooks postData w
  = (Fulfilled (<["failed" := []]> {["successRequests" := (attempts postData hooks w).1]}),
     (attempts postData hooks w).2) ∧
  ids (attempts postData hooks w).1 = ids hooks.
Proof.
  intros Hsize Hnone. split; [|apply attempts_ids].
  unfold initateProcessing.
  rewrite (async_bind_step _ _ _ _ _
             (firstRound_total (BATCH_SIZE settings) hooks postData w (or_introl Hsize))).
  rewrite Hnone, (failed_nil_succeeded _ Hnone).
  by rewrite (async_bind_step _ _ _ _ _ (retryRounds_idle _ _ _ _ _ _)).
Qed.

(** ** The number of requests *)

Lemma attempts_counted {H} `{HookFields H} postData (hooks : list H) (w : @World T) n :
  (@attempts (counted T) _ _ postData hooks (w, n)).2.2 = n + length hooks.
Proof.
  revert w n. induction hooks as [|hook hooks IH]; intros w n; simpl; [lia|].
  unfold attempt. simpl.
  destruct (@axios_post T (get_hookURL hook) postData w) as [settled w1].
  specialize (IH w1 (S n)).
  destruct (@attempts (counted T) _ _ postData hooks (w1, S n)) as [rs [w2 n2]].
  simpl in *. lia.
Qed.

Lemma failureSet_counted postData k F (w : @World T) n :
  n ≤ (@failureSet (counted T) postData k F (w, n)).2.2 ≤ n + k * length F.
Proof.
  revert F w n. induction k as [|k IH]; intros F w n; simpl; [lia|].
  pose proof (attempts_counted postData F w n) as Hn.
  pose proof (@attempts_length (counted T) _ _ postData F (w, n)) as Hlen.
  destruct (@attempts (counted T) _ _ postData F (w, n)) as [rs [w1 n1]].
  simpl in *. specialize (IH (failed rs) w1 n1).
  pose proof (length_filter (λ x, success x = false) rs) as Hle.
  rewrite Hlen in Hle.
  pose proof (Nat.mul_le_mono_l _ _ k Hle) as Hmul.
  unfold failed in *. lia.
Qed.

(** X12: a run with a batch size of at least 1 calls [axios.post] at least
    once per hook of the input and at most [RETRY_COUNT] times per hook (once
    per hook when [RETRY_COUNT] is below 1). *)
Theorem request_count_bounds {H} `{HookFields H} settings (hooks : list H) postData
    (w : @World T) (n : nat) :
  (1 ≤ BATCH_SIZE settings)%Z →
  ∃ report w' n',
    @initateProcessing (counted T) _ _ settings hooks postData (w, n)
    = (Fulfilled report, (w', n')) ∧
    n + length hooks ≤ n' ∧
    n' ≤ n + Z.to_nat (Z.max 1 (RETRY_COUNT settings)) * length hooks.
Proof.
  intros Hsize.
  destruct (@initateProcessing_total (counted T) _ _ settings hooks postData (w, n) Hsize)
    as (report & [w' n'] & Hrun).
  exists report, w', n'. split; [done|].
  apply initateProcessing_inv in Hrun as (Hw & _).
  apply (f_equal snd) in Hw. simpl in Hw. subst n'.
  pose proof (attempts_counted postData hooks w n) as Hn.
  pose proof (@attempts_length (counted T) _ _ postData hooks (w, n)) as Hlen.
  destruct (@attempts (counted T) _ _ postData hooks (w, n)) as [rs [w1 n1]].
  simpl in *.
  assert (Z.to_nat (Z.max 1 (RETRY_COUNT settings))
          = S (Z.to_nat (RETRY_COUNT settings - 1))) as -> by lia.
  generalize (Z.to_nat (RETRY_COUNT settings - 1)). intros k.
  pose proof (failureSet_counted postData k (failed rs) w1 n1) as [Hlow Hhigh].
  pose proof (length_filter (λ x, success x = false) rs) as Hle.
  unfold failed in *. rewrite Hlen in Hle.
  pose proof (Nat.mul_le_mono_l _ _ k Hle) as Hmul.
  split; [by rewrite <-Hn|]. etrans; [exact Hhigh|]. lia.
Qed.
End properties.

(** ** validateAndUpdate *)

Section registry.
Context `{R : Registry}.

(** X13: [validateAndUpdate] rejects a non-empty URL that [validUrl.isWebUri]
    does not accept with the error [Hook Not Proper] before it calls the
    adapter; an empty URL is not checked and goes to the adapter as it is;
    and a fulfilled call returns what [updateById] returned for these
    parameters, the URL being empty or accepted. *)
Theorem validateAndUpdate_checks_url (_id name hookURL : string) (w : World) :
  (hookURL ≠ "" → truthy_opt (validUrl_isWebUri hookURL) = false →
   validateAndUpdate _id name hookURL w
   = (Rejected {| message := "Hook Not Proper" |},
      console_log (validUrl_isWebUri hookURL) w)) ∧
  (hookURL = "" →
   validateAndUpdate _id name hookURL w
   = (match (adapter_updateById _id name "" w).1 with
      | inl UpdatedWebHook => Fulfilled UpdatedWebHook
      | inr err => Rejected err
      end, (adapter_updateById _id name "" w).2)) ∧
  (∀ UpdatedWebHook w',
     validateAndUpdate _id name hookURL w = (Fulfilled UpdatedWebHook, w') →
     (hookURL = "" ∨ ∃ uri, validUrl_isWebUri hookURL = Some uri ∧ uri ≠ "") ∧
     ∃ w0, adapter_updateById _id name hookURL w0 = (inl UpdatedWebHook, w')).
Proof.
  unfold validateAndUpdate. split; [|split].
  - intros Hne Hbad. destruct hookURL; [done|]. simpl. by rewrite Hbad.
  - intros ->. simpl. by destruct (adapter_updateById _id name "" w).
  - intros doc w' Hrun. destruct hookURL as [|c url].
    + simpl in Hrun. split; [by left|]. exists w.
      destruct (adapter_updateById _id name "" w) as [[doc'|err] w1]; [|done].
      by injection Hrun as <- <-.
    + simpl in Hrun.
      destruct (validUrl_isWebUri (String c url)) as [uri|] eqn:Huri; simpl in Hrun; [|done].
      destruct uri as [|c' uri]; simpl in Hrun; [done|].
      split; [right; by eexists|].
      exists (console_log (Some (String c' uri)) w).
      destruct (adapter_updateById _id name (String c url) _) as [[doc'|err] w1]; [|done].
      by injection Hrun as <- <-.
Qed.
End registry.

(** ** Concrete runs of the further properties *)

(** Four elements in groups of three. *)
Lemma chunkWebHooks_count_witness :
  ∃ chunks,
    chunkWebHooks [1; 2; 3; 4] 3 = Fulfilled chunks ∧
    Z.of_nat (length chunks) = ((Z.of_nat (length [1; 2; 3; 4]) + 3 - 1) / 3)%Z.
Proof. apply (chunkWebHooks_count [1; 2; 3; 4] 3). lia. Defined.

(** Two elements and a size of three. *)
Lemma chunkWebHooks_single_chunk_witness :
  chunkWebHooks [1; 2] 3 = Fulfilled [[1; 2]].
Proof. apply (chunkWebHooks_single_chunk [1; 2] 3); [discriminate|simpl; lia]. Defined.

(** Three hooks, the second down, with batches of ten and of one. *)
Lemma batch_size_independent_witness :
  ∃ report1 report2 w',
    @initateProcessing (byURL [] ["http://localhost:4001"]) _ _ settings (seedHooks 3)
      examplePost () = (Fulfilled report1, w') ∧
    @initateProcessing (byURL [] ["http://localhost:4001"]) _ _
      {| BATCH_SIZE := 1; RETRY_COUNT := 3 |} (seedHooks 3) examplePost ()
    = (Fulfilled report2, w') ∧
    report1 !! "successRequests" = report2 !! "successRequests" ∧
    report1 !! "failed" = report2 !! "failed".
Proof.
  apply (@batch_size_independent (byURL [] ["http://localhost:4001"]) _ _ settings
           {| BATCH_SIZE := 1; RETRY_COUNT := 3 |} (seedHooks 3) examplePost ());
    [simpl; lia|simpl; lia|reflexivity].
Defined.
(** Three hooks, the second down throughout. *)
Lemma report_keys_witness :
  (1 ≤ BATCH_SIZE settings)%Z ∧
  ∃ report w',
    @initateProcessing (byURL [] ["http://localhost:4001"]) _ _ settings (seedHooks 3) examplePost ()
    = (Fulfilled report, w') ∧
    is_Some (report !! "successRequests") ∧
    is_Some (report !! "failed") ∧
    ∀ key, is_Some (report !! key) →
      key = "successRequests" ∨ key = "failed" ∨
      ∃ i, (1 ≤ i < RETRY_COUNT settings)%Z ∧ key = retryKey i.
Proof.
  assert (Hsize : (1 ≤ BATCH_SIZE settings)%Z) by (simpl; lia).
  split; [exact Hsize|].
  exact (@report_keys (byURL [] ["http://localhost:4001"]) _ _ settings (seedHooks 3) examplePost () Hsize).
Defined.

Lemma report_flags_witness :
  (1 ≤ BATCH_SIZE settings)%Z ∧
  ∃ report w',
    @initateProcessing (byURL [] ["http://localhost:4001"]) _ _ settings (seedHooks 3) examplePost ()
    = (Fulfilled report, w') ∧
    ∀ key bucket x, report !! key = Some bucket → x ∈ bucket →
      success x = (if decide (key = "failed") then false else true).
Proof.
  assert (Hsize : (1 ≤ BATCH_SIZE settings)%Z) by (simpl; lia).
  split; [exact Hsize|].
  exact (@report_flags (byURL [] ["http://localhost:4001"]) _ _ settings (seedHooks 3) examplePost () Hsize).
Defined.

Lemma report_carries_hooks_witness :
  (1 ≤ BATCH_SIZE settings)%Z ∧
  ∃ report w',
    @initateProcessing (byURL [] ["http://localhost:4001"]) _ _ settings (seedHooks 3) examplePost ()
    = (Fulfilled report, w') ∧
    ∀ key bucket x, report !! key = Some bucket → x ∈ bucket →
      ∃ hook, hook ∈ seedHooks 3 ∧ carries hook x.
Proof.
  assert (Hsize : (1 ≤ BATCH_SIZE settings)%Z) by (simpl; lia).
  split; [exact Hsize|].
  exact (@report_carries_hooks (byURL [] ["http://localhost:4001"]) _ _ settings (seedHooks 3) examplePost () Hsize).
Defined.

Lemma report_buckets_in_input_order_witness :
  (1 ≤ BATCH_SIZE settings)%Z ∧
  ∃ report w',
    @initateProcessing (byURL [] ["http://localhost:4001"]) _ _ settings (seedHooks 3) examplePost ()
    = (Fulfilled report, w') ∧
    ∀ key bucket, report !! key = Some bucket →
      ids bucket `sublist_of` ids (seedHooks 3) ∧
      (NoDup (ids (seedHooks 3)) → NoDup (ids bucket)).
Proof.
  assert (Hsize : (1 ≤ BATCH_SIZE settings)%Z) by (simpl; lia).
  split; [exact Hsize|].
  exact (@report_buckets_in_input_order (byURL [] ["http://localhost:4001"]) _ _ settings (seedHooks 3) examplePost () Hsize).
Defined.

Lemma report_buckets_disjoint_witness :
  (1 ≤ BATCH_SIZE settings)%Z ∧ NoDup (ids (seedHooks 3)) ∧
  ∃ report w',
    @initateProcessing (byURL [] ["http://localhost:4001"]) _ _ settings (seedHooks 3) examplePost ()
    = (Fulfilled report, w') ∧
    ∀ key1 key2 id, inBucket report key1 id → inBucket report key2 id → key1 = key2.
Proof.
  assert (Hsize : (1 ≤ BATCH_SIZE settings)%Z) by (simpl; lia).
  assert (Hnd : NoDup (ids (seedHooks 3)))
    by (apply (bool_decide_unpack _); vm_compute; exact I).
  split; [exact Hsize|]. split; [exact Hnd|].
  exact (@report_buckets_disjoint (byURL [] ["http://localhost:4001"]) _ _ settings (seedHooks 3) examplePost () Hsize Hnd).
Defined.

Lemma failed_bucket_never_succeeded_witness :
  (1 ≤ BATCH_SIZE settings)%Z ∧ NoDup (ids (seedHooks 3)) ∧
  ∃ report w',
    @initateProcessing (byURL [] ["http://localhost:4001"]) _ _ settings (seedHooks 3) examplePost ()
    = (Fulfilled report, w') ∧
    ∀ id, inBucket report "failed" id →
      id ∈ ids (seedHooks 3) ∧
      ∀ k : nat, (Z.of_nat k < Z.max 1 (RETRY_COUNT settings))%Z →
                 @failsInRound (byURL [] ["http://localhost:4001"]) _ _ settings
                   (seedHooks 3) examplePost () id k.
Proof.
  assert (Hsize : (1 ≤ BATCH_SIZE settings)%Z) by (simpl; lia).
  assert (Hnd : NoDup (ids (seedHooks 3)))
    by (apply (bool_decide_unpack _); vm_compute; exact I).
  split; [exact Hsize|]. split; [exact Hnd|].
  exact (@failed_bucket_never_succeeded (byURL [] ["http://localhost:4001"]) _ _ settings (seedHooks 3) examplePost () Hsize Hnd).
Defined.

(** One failure in the first pass, batches of ten. *)
Lemma report_complete_witness :
  (1 ≤ BATCH_SIZE settings)%Z ∧
  (Z.of_nat (length (failed (@attempts (byURL [] ["http://localhost:4001"]) _ _
                               examplePost (seedHooks 3) ()).1))
   ≤ BATCH_SIZE settings)%Z ∧
  ∃ report w',
    @initateProcessing (byURL [] ["http://localhost:4001"]) _ _ settings (seedHooks 3)
      examplePost () = (Fulfilled report, w') ∧
    ∀ hook, hook ∈ seedHooks 3 → ∃ key, inBucket report key (get_id hook).
Proof.
  assert (Hsize : (1 ≤ BATCH_SIZE settings)%Z) by (simpl; lia).
  assert (Hfit : (Z.of_nat (length (failed (@attempts (byURL [] ["http://localhost:4001"])
                                              _ _ examplePost (seedHooks 3) ()).1))
                  ≤ BATCH_SIZE settings)%Z)
    by (apply Z.leb_le; vm_compute; reflexivity).
  split; [exact Hsize|]. split; [exact Hfit|].
  exact (@report_complete (byURL [] ["http://localhost:4001"]) _ _ settings (seedHooks 3)
           examplePost () Hsize (or_intror Hfit)).
Defined.

(** Three hooks, the second down: between 3 and 9 requests. *)
Lemma request_count_bounds_witness :
  ∃ report w' n',
    @initateProcessing (counted (byURL [] ["http://localhost:4001"])) _ _ settings
      (seedHooks 3) examplePost ((), 0) = (Fulfilled report, (w', n')) ∧
    0 + length (seedHooks 3) ≤ n' ∧
    n' ≤ 0 + Z.to_nat (Z.max 1 (RETRY_COUNT settings)) * length (seedHooks 3).
Proof.
  apply (@request_count_bounds (byURL [] ["http://localhost:4001"]) _ _ settings
           (seedHooks 3) examplePost () 0).
  simpl. lia.
Defined.

(** An [ftp] URL against the registry that accepts [http] only. *)
Lemma validateAndUpdate_checks_url_witness :
  @validateAndUpdate (byURL [] []) (httpOnly (byURL [] [])) "1" "Server#1" "ftp://localhost" ()
  = (Rejected {| message := "Hook Not Proper" |}, ()).
Proof.
  apply (proj1 (@validateAndUpdate_checks_url (byURL [] []) (httpOnly (byURL [] []))
                  "1" "Server#1" "ftp://localhost" ())); [discriminate|reflexivity].
Defined.

(** Three hooks that all answer 200. *)
Lemma all_succeed_first_pass_witness :
  @initateProcessing (byURL [] []) _ _ settings (seedHooks 3) examplePost ()
  = (Fulfilled (<["failed" := []]>
                  {["successRequests" :=
                      (@attempts (byURL [] []) _ _ examplePost (seedHooks 3) ()).1]}),
     (@attempts (byURL [] []) _ _ examplePost (seedHooks 3) ()).2).
Proof.
  apply (proj1 (@all_succeed_first_pass (byURL [] []) _ _ settings (seedHooks 3)
                  examplePost () ltac:(simpl; lia) ltac:(vm_compute; reflexivity))).
Defined.
